(** * imputime: interpolation and extrapolation of dated series

    Shallow embedding of [imputime/utils.py] and [imputime/tempute.py].

    A pandas table with a [date] column and one value column is a list of
    rows.  Dates are calendar dates (timestamps at midnight); the pandas
    calendar operations the code calls ([Timedelta], [DateOffset],
    [to_period], [date_range] with the frequencies ['D'], ['M'], ['Y'])
    are written out on (year, month, day) triples.  Values are real
    numbers: the model is the exact arithmetic that the float code
    approximates.  The functions of [utils.py] change the table they are
    given and the entry points work on it (or on a copy); the model
    passes the table from step to step. *)

From Stdlib Require Import ZArith List Sorted Bool Lia Reals Lra.
Import ListNotations.

(** ** Calendar arithmetic *)

Module Calendar.

Local Open Scope Z_scope.

Record date : Set := mkdate { year : Z; month : Z; day : Z }.

Definition is_leap (y : Z) : bool :=
  (y mod 4 =? 0) && (negb (y mod 100 =? 0) || (y mod 400 =? 0)).

Definition days_in_month (y m : Z) : Z :=
  match m with
  | 2 => if is_leap y then 29 else 28
  | 4 | 6 | 9 | 11 => 30
  | _ => 31
  end.

(** A timestamp always denotes an existing calendar day. *)
Definition valid_date (d : date) : Prop :=
  1 <= month d <= 12 /\ 1 <= day d <= days_in_month (year d) (month d).

Definition valid_dateb (d : date) : bool :=
  (1 <=? month d) && (month d <=? 12) && (1 <=? day d)
  && (day d <=? days_in_month (year d) (month d)).

Definition days_before_year (y : Z) : Z :=
  365 * (y - 1) + (y - 1) / 4 - (y - 1) / 100 + (y - 1) / 400.

Definition days_before_month (y m : Z) : Z :=
  match m with
  | 1 => 0 | 2 => 31 | 3 => 59 | 4 => 90 | 5 => 120 | 6 => 151
  | 7 => 181 | 8 => 212 | 9 => 243 | 10 => 273 | 11 => 304 | _ => 334
  end + (if (2 <? m) && is_leap y then 1 else 0).

(** Day number of a date: the value timestamps are compared and
    subtracted by, counted in days. *)
Definition toordinal (d : date) : Z :=
  days_before_year (year d) + days_before_month (year d) (month d) + day d.

(** Timestamp comparisons. *)
Definition date_eqb (a b : date) : bool := toordinal a =? toordinal b.
Definition date_leb (a b : date) : bool := toordinal a <=? toordinal b.
Definition date_ltb (a b : date) : bool := toordinal a <? toordinal b.

Definition next_day (d : date) : date :=
  if day d <? days_in_month (year d) (month d)
  then mkdate (year d) (month d) (day d + 1)
  else if month d <? 12 then mkdate (year d) (month d + 1) 1
  else mkdate (year d + 1) 1 1.

Definition prev_day (d : date) : date :=
  if 1 <? day d then mkdate (year d) (month d) (day d - 1)
  else if 1 <? month d
  then mkdate (year d) (month d - 1) (days_in_month (year d) (month d - 1))
  else mkdate (year d - 1) 12 31.

(** [date + pd.Timedelta(days=n)] *)
Definition add_days (d : date) (n : Z) : date :=
  if 0 <=? n then Nat.iter (Z.to_nat n) next_day d
  else Nat.iter (Z.to_nat (- n)) prev_day d.

(** Ordinal of the monthly period containing a date ([to_period('M')]);
    differences of these are the [n] of a period difference. *)
Definition month_period (d : date) : Z := year d * 12 + (month d - 1).

(** [to_period('Y')] *)
Definition year_period (d : date) : Z := year d.

(** Last day of the month with ordinal [p]: the dates the frequency ['M']
    generates. *)
Definition month_end (p : Z) : date :=
  mkdate (p / 12) (p mod 12 + 1) (days_in_month (p / 12) (p mod 12 + 1)).

(** Last day of year [y]: the dates the frequency ['Y'] generates. *)
Definition year_end (y : Z) : date := mkdate y 12 31.

(** [date + pd.DateOffset(months=n)]: the day of the month is kept, or
    clipped to the length of the target month. *)
Definition add_months (d : date) (n : Z) : date :=
  let p := month_period d + n in
  let y := p / 12 in
  let m := p mod 12 + 1 in
  mkdate y m (Z.min (day d) (days_in_month y m)).

(** [date + pd.DateOffset(years=n)] *)
Definition add_years (d : date) (n : Z) : date :=
  let y := year d + n in
  mkdate y (month d) (Z.min (day d) (days_in_month y (month d))).

End Calendar.

Import Calendar.

(** ** The library *)

Module Imputime.

(** The [time_units] and [rate_type] arguments are strings compared with
    the literals below; a call with any other string is outside the
    model. *)
Inductive time_unit : Set := Days | Months | Years.
Inductive rate_type : Set := Linear | Exponential.

(** Exceptions a call can end with. *)
Inductive exception : Set :=
| GapError           (* ValueError('There are gaps in your data. ...') *)
| ZeroDivisionError  (* a Python division whose divisor is zero *)
| IndexError         (* [.values[0]] of an empty selection *)
| TypeError          (* the difference of an empty column of periods: pandas
                        builds an empty float array and cannot store its
                        missing-value marker in it *)
| EmptyApply.        (* ValueError: a row-wise [apply] over a table without
                        rows gives back a table, which cannot be stored in
                        one column *)

(** What a call produces: a result, an exception, or a table whose
    numbers are not real (a NaN from the mean of an empty column, a
    complex number from a fractional power of a negative ratio).  Python
    returns normally in the last case; the model has no value for it. *)
Inductive outcome (A : Type) : Type :=
| Ok (a : A)
| Raised (e : exception)
| NonReal.

Arguments Ok {A} a.
Arguments Raised {A} e.
Arguments NonReal {A}.

Definition bind {A B} (c : outcome A) (k : A -> outcome B) : outcome B :=
  match c with
  | Ok a => k a
  | Raised e => Raised e
  | NonReal => NonReal
  end.

Notation "x <- c ;; k" := (bind c (fun x => k))
  (at level 61, c at next level, right associativity).

(** Row-wise evaluation: the first row that raises ends the call; a row
    with a non-real number does not stop the rows after it. *)
Fixpoint collect {A} (l : list (outcome A)) : outcome (list A) :=
  match l with
  | [] => Ok []
  | Ok a :: t =>
      match collect t with
      | Ok t' => Ok (a :: t')
      | Raised e => Raised e
      | NonReal => NonReal
      end
  | Raised e :: _ => Raised e
  | NonReal :: t =>
      match collect t with
      | Raised e => Raised e
      | _ => NonReal
      end
  end.

(** A table with the columns [date] and [value_column]. *)
Definition dataset : Type := list (date * R).

(** A row of the working table.  The columns are added one step at a
    time; a column not added yet holds an empty list or zero. *)
Record row : Type := mkrow {
  start_date : date;
  start_value : R;
  end_date : date;
  end_value : R;
  date_range : list date;
  timesteps : nat;
  rate : R;
  interpolated : list R
}.

Definition set_date_range (l : list date) (x : row) : row :=
  mkrow (start_date x) (start_value x) (end_date x) (end_value x)
        l (timesteps x) (rate x) (interpolated x).

Definition set_timesteps (k : nat) (x : row) : row :=
  mkrow (start_date x) (start_value x) (end_date x) (end_value x)
        (date_range x) k (rate x) (interpolated x).

Definition set_rate (r : R) (x : row) : row :=
  mkrow (start_date x) (start_value x) (end_date x) (end_value x)
        (date_range x) (timesteps x) r (interpolated x).

Definition set_interpolated (l : list R) (x : row) : row :=
  mkrow (start_date x) (start_value x) (end_date x) (end_value x)
        (date_range x) (timesteps x) (rate x) l.

(** *** utils.py *)

Definition filter_data (ds : dataset) (start_date end_date : date)
    (inclusive : bool) : dataset :=
  if inclusive
  then filter (fun r => date_leb start_date (fst r)
                        && date_leb (fst r) end_date) ds
  else filter (fun r => date_ltb start_date (fst r)
                        && date_ltb (fst r) end_date) ds.

(** [Series.diff().dropna()] *)
Fixpoint diff (l : list Z) : list Z :=
  match l with
  | a :: (b :: _) as t => (b - a)%Z :: diff t
  | _ => []
  end.

(** [periods.diff()] of a column of periods: over a table without rows
    the difference raises; [Series.diff()] of a column of timestamps does
    not. *)
Definition period_diffs (periods : list Z) : outcome (list Z) :=
  match periods with
  | [] => Raised TypeError
  | _ :: _ => Ok (diff periods)
  end.

Definition gap_check (ds : dataset) (time_units : time_unit) : outcome unit :=
  gaps <-
    match time_units with
    | Days =>
        let delta := diff (map (fun r => toordinal (fst r)) ds) in
        Ok (filter (fun x => (1 <? x)%Z) delta)
    | Months =>
        let periods := map (fun r => month_period (fst r)) ds in
        month_diffs <- period_diffs periods ;;
        Ok (filter (fun x => (1 <? x)%Z) month_diffs)
    | Years =>
        let periods := map (fun r => year_period (fst r)) ds in
        year_diffs <- period_diffs periods ;;
        Ok (filter (fun x => (1 <? x)%Z) year_diffs)
    end ;;
  match gaps with
  | [] => Ok tt
  | _ :: _ => Raised GapError
  end.

(** Each row is paired with its successor; the last row, which has none,
    is dropped. *)
Fixpoint add_bounds (ds : dataset) : list row :=
  match ds with
  | (d, v) :: ((d', v') :: _) as t =>
      mkrow d v d' v' [] 0 0%R [] :: add_bounds t
  | _ => []
  end.

Definition add_timesteps (rows : list row) : list row :=
  map (fun x => set_timesteps (length (date_range x)) x) rows.

(** [pd.date_range(start, end, freq)]: the dates of the frequency from
    [start] to [end], both included.  ['D'] counts days from [start];
    ['M'] and ['Y'] give the month ends and the year ends in the
    interval. *)
Definition date_range_both (u : time_unit) (s e : date) : list date :=
  match u with
  | Days =>
      map (fun i => add_days s (Z.of_nat i))
          (seq 0 (Z.to_nat (toordinal e - toordinal s + 1)))
  | Months =>
      filter (fun c => date_leb s c && date_leb c e)
        (map (fun i => month_end (month_period s + Z.of_nat i))
             (seq 0 (Z.to_nat (month_period e - month_period s) + 1)))
  | Years =>
      filter (fun c => date_leb s c && date_leb c e)
        (map (fun i => year_end (year s + Z.of_nat i))
             (seq 0 (Z.to_nat (year e - year s) + 1)))
  end.

(** [pd.date_range(start, end, freq, inclusive='left')]: the range
    without [end] itself.  pandas trims an end point only when [start]
    and [end] differ: for [start == end] the range is kept as it is. *)
Definition date_range_left (u : time_unit) (s e : date) : list date :=
  if date_eqb s e then date_range_both u s e
  else filter (fun c => negb (date_eqb c e)) (date_range_both u s e).

(** Over a table without rows, [apply] does not call the lambda on any
    row and hands back the table itself, which the assignment to the one
    column [date_range] rejects. *)
Definition add_daterange (rows : list row) (time_units : time_unit)
  : outcome (list row) :=
  match rows with
  | [] => Raised EmptyApply
  | _ :: _ =>
      Ok (map (fun x =>
                 set_date_range
                   (date_range_left time_units (start_date x) (end_date x)) x)
              rows)
  end.

Definition date_delta (time_units : time_unit) (d : date) (n : Z) : date :=
  match time_units with
  | Days => add_days d n
  | Months => add_months d n
  | Years => add_years d n
  end.

(** [b ** (1 / k)] for a float [b] and a count [k >= 1]: a real power of
    a positive base, zero for a zero base, and for a negative base the
    base itself when the exponent is 1 and a complex number otherwise. *)
Definition float_root (b : R) (k : nat) : outcome R :=
  if Rlt_dec 0 b then Ok (Rpower b (1 / INR k))
  else if Req_dec_T b 0 then Ok 0%R
  else if Nat.eqb k 1 then Ok b
  else NonReal.

(** The rate of one row.  A row of the working table mixes timestamps
    and numbers, so the lambda receives Python numbers and a zero divisor
    raises.  In the exponential case the ratio is evaluated before the
    exponent. *)
Definition row_rate (rt : rate_type) (x : row) : outcome R :=
  match rt with
  | Linear =>
      if Nat.eqb (timesteps x) 0 then Raised ZeroDivisionError
      else Ok ((end_value x - start_value x) / INR (timesteps x))%R
  | Exponential =>
      if Req_dec_T (start_value x) 0 then Raised ZeroDivisionError
      else if Nat.eqb (timesteps x) 0 then Raised ZeroDivisionError
      else float_root (end_value x / start_value x)%R (timesteps x)
  end.

Definition add_rate (rows : list row) (rt : rate_type) : outcome (list row) :=
  collect (map (fun x => r <- row_rate rt x ;; Ok (set_rate r x)) rows).

Definition interpolate_row (rt : rate_type) (x : row) : list R :=
  match rt with
  | Linear =>
      map (fun n => (start_value x + INR n * rate x)%R) (seq 0 (timesteps x))
  | Exponential =>
      map (fun n => (start_value x * rate x ^ n)%R) (seq 0 (timesteps x))
  end.

Definition add_interpolated_values (rows : list row) (rt : rate_type)
  : list row :=
  map (fun x => set_interpolated (interpolate_row rt x) x) rows.

(** *** tempute.py *)

(** The two list columns are exploded separately and paired by
    position.  Every list that gets here is non-empty: a row with no
    step has raised in [add_rate]. *)
Definition interpolated_dataset (rows : list row) : dataset :=
  combine (concat (map date_range rows)) (concat (map interpolated rows)).

(** [dataset['date'].max()] *)
Definition max_date (ds : dataset) : option date :=
  fold_left (fun acc r =>
               match acc with
               | None => Some (fst r)
               | Some m => if date_ltb m (fst r) then Some (fst r) else Some m
               end) ds None.

(** [dataset[dataset['date'] == dataset['date'].max()]] *)
Definition last_row (ds : dataset) : dataset :=
  match max_date ds with
  | None => []
  | Some m => filter (fun r => date_eqb (fst r) m) ds
  end.

Definition fill_gaps (ds : dataset) (rt : rate_type) (time_units : time_unit)
  : outcome dataset :=
  let last := last_row ds in
  let data := add_bounds ds in
  data <- add_daterange data time_units ;;
  let data := add_timesteps data in
  data <- add_rate data rt ;;
  let data := add_interpolated_values data rt in
  let filled_in_data := interpolated_dataset data in
  Ok (filled_in_data ++ last).

Definition yearly_to_monthly (ds : dataset) (rt : rate_type)
  : outcome dataset :=
  _ <- gap_check ds Months ;;
  let last := last_row ds in
  let data := add_bounds ds in
  data <- add_daterange data Months ;;
  let data := add_timesteps data in
  data <- add_rate data rt ;;
  let data := add_interpolated_values data rt in
  let filled_in_data := interpolated_dataset data in
  Ok (filled_in_data ++ last).

Definition monthly_to_daily (ds : dataset) (rt : rate_type)
  : outcome dataset :=
  _ <- gap_check ds Months ;;
  let last := last_row ds in
  let data := add_bounds ds in
  data <- add_daterange data Days ;;
  let data := add_timesteps data in
  data <- add_rate data rt ;;
  let data := add_interpolated_values data rt in
  let filled_in_data := interpolated_dataset data in
  Ok (filled_in_data ++ last).

(** [pd.date_range(start, periods=n, freq, inclusive='both')]: [n] dates
    of the frequency, the first one the first such date not before
    [start]. *)
Definition date_range_periods (u : time_unit) (s : date) (n : nat)
  : list date :=
  match u with
  | Days => map (fun i => add_days s (Z.of_nat i)) (seq 0 n)
  | Months => map (fun i => month_end (month_period s + Z.of_nat i)) (seq 0 n)
  | Years => map (fun i => year_end (year s + Z.of_nat i)) (seq 0 n)
  end.

Definition extrapolated_values (rt : rate_type) (r start_value : R)
    (future_timesteps : nat) : list R :=
  match rt with
  | Linear =>
      map (fun n => (start_value + r * INR n)%R) (seq 0 (future_timesteps + 1))
  | Exponential =>
      map (fun n => (start_value * r ^ n)%R) (seq 0 (future_timesteps + 1))
  end.

Definition extrapolated_dataset (rt : rate_type) (time_units : time_unit)
    (r : R) (start_date : date) (start_value : R) (future_timesteps : nat)
  : dataset :=
  let dates := date_range_periods time_units start_date (future_timesteps + 1) in
  let values := extrapolated_values rt r start_value future_timesteps in
  combine dates values.

(** [np.mean] of a column; over a table without rows the rate column is
    empty and its mean is NaN, here [None]. *)
Definition mean (l : list R) : option R :=
  match l with
  | [] => None
  | _ :: _ => Some (fold_right Rplus 0%R l / INR (length l))%R
  end.

(** [extrapolated_dataset] when the rate is NaN.  A linear value
    [start_value + nan * n] is NaN for every [n].  An exponential value
    [start_value * nan ** n] is NaN for [n >= 1], but [nan ** 0] is 1:
    with [future_timesteps = 0] the table is the one row of the start
    value. *)
Definition extrapolated_dataset_nan (rt : rate_type) (time_units : time_unit)
    (start_date : date) (start_value : R) (future_timesteps : nat)
  : outcome dataset :=
  let dates := date_range_periods time_units start_date (future_timesteps + 1) in
  match rt, future_timesteps with
  | Exponential, O => Ok (combine dates [(start_value * 1)%R])
  | _, _ => NonReal
  end.

Definition extrapolate (ds : dataset) (rt : rate_type)
    (time_units : time_unit) (start_date : date)
    (future_timesteps : nat) (past_timesteps : Z) : outcome dataset :=
  let extrapolate_start_date := start_date in
  extrapolate_start_value <-
    match filter (fun r => date_eqb (fst r) extrapolate_start_date) ds with
    | [] => Raised IndexError
    | r :: _ => Ok (snd r)
    end ;;
  let rate_start_date :=
    date_delta time_units extrapolate_start_date past_timesteps in
  let extrapolate_data :=
    filter_data ds rate_start_date extrapolate_start_date true in
  _ <- gap_check extrapolate_data time_units ;;
  let extrapolate_data := add_bounds extrapolate_data in
  let extrapolate_data := map (set_timesteps 1) extrapolate_data in
  extrapolate_data <- add_rate extrapolate_data rt ;;
  match mean (map rate extrapolate_data) with
  | Some average_rate =>
      Ok (extrapolated_dataset rt time_units average_rate
            extrapolate_start_date extrapolate_start_value future_timesteps)
  | None =>
      extrapolated_dataset_nan rt time_units extrapolate_start_date
        extrapolate_start_value future_timesteps
  end.

End Imputime.

Import Imputime.

(** ** Notions the statements use *)

Module Props.

Local Open Scope Z_scope.

(** Number of the period of a unit that holds a date; for days, the day
    number. *)
Definition period (u : time_unit) (d : date) : Z :=
  match u with
  | Days => toordinal d
  | Months => month_period d
  | Years => year_period d
  end.

(** Day number of the day before the first day of month [p]. *)
Definition month_base (p : Z) : Z :=
  days_before_year (p / 12) + days_before_month (p / 12) (p mod 12 + 1).

(** The first date of the frequency of a unit that is not before [d]:
    [d] itself for days, the end of its month, the end of its year. *)
Definition period_end (u : time_unit) (d : date) : date :=
  match u with
  | Days => d
  | Months => month_end (month_period d)
  | Years => year_end (year d)
  end.

(** The [i]-th date of the frequency of a unit counted from [d]: [i]
    days after [d], the end of the [i]-th month from the month of [d],
    the end of the [i]-th year from the year of [d]. *)
Definition nth_period_end (u : time_unit) (d : date) (i : nat) : date :=
  match u with
  | Days => add_days d (Z.of_nat i)
  | Months => month_end (month_period d + Z.of_nat i)
  | Years => year_end (year d + Z.of_nat i)
  end.

(** A date is on the frequency of a unit: any day, the last day of a
    month, the last day of a year. *)
Definition on_frequency (u : time_unit) (d : date) : Prop :=
  match u with
  | Days => True
  | Months => day d = days_in_month (year d) (month d)
  | Years => month d = 12 /\ day d = 31
  end.

(** [n] consecutive numbers from [a]. *)
Definition consecutive (a : Z) (n : nat) : list Z :=
  map (fun i => a + Z.of_nat i) (seq 0 n).

Definition periods (u : time_unit) (l : list date) : list Z :=
  map (period u) l.

(** Each row is exactly one unit after the row before it. *)
Definition contiguous (u : time_unit) (ds : dataset) : Prop :=
  Forall (fun x => x = 1) (diff (periods u (map fst ds))).

(** Each row is in a later period than the row before it. *)
Definition increasing (u : time_unit) (l : list date) : Prop :=
  Forall (fun x => 0 < x) (diff (periods u l)).

(** Strictly increasing dates: sorted, and no date twice. *)
Definition ascending (l : list date) : Prop :=
  StronglySorted (fun a b => toordinal a < toordinal b) l.

(** The entry points that fill a table, the unit the input is given at
    and the unit of the output. *)
Inductive operation : Set :=
| FillGaps (u : time_unit)
| YearlyToMonthly
| MonthlyToDaily.

Definition native_unit (op : operation) : time_unit :=
  match op with
  | FillGaps u => u
  | YearlyToMonthly => Years
  | MonthlyToDaily => Months
  end.

Definition target_unit (op : operation) : time_unit :=
  match op with
  | FillGaps u => u
  | YearlyToMonthly => Months
  | MonthlyToDaily => Days
  end.

Definition run (op : operation) (ds : dataset) (rt : rate_type)
  : outcome dataset :=
  match op with
  | FillGaps u => fill_gaps ds rt u
  | YearlyToMonthly => yearly_to_monthly ds rt
  | MonthlyToDaily => monthly_to_daily ds rt
  end.

(** The rows a segment contributes under linear rates: the dates of its
    range, each with the start value moved by that many steps of the
    rate of the segment. *)
Definition linear_segment (u : time_unit) (x : row) : list (date * R) :=
  let range := date_range_left u (start_date x) (end_date x) in
  let k := length range in
  combine range
    (map (fun n =>
            (start_value x
             + INR n * ((end_value x - start_value x) / INR k))%R)
         (seq 0 k)).

(** A row of the input table at the date its period is reported at. *)
Definition at_period_end (u : time_unit) (r : date * R) : date * R :=
  (period_end u (fst r), snd r).

End Props.

Import Props.

(** ** Tables of the documented scenarios *)

Module Scenarios.

Local Open Scope R_scope.

(** Three yearly observations. *)
Definition scenario_A : dataset :=
  [(mkdate 2020 1 1, 100); (mkdate 2021 1 1, 150); (mkdate 2022 1 1, 200)].

(** Two observations two years apart. *)
Definition two_year_jump : dataset :=
  [(mkdate 2020 1 1, 100); (mkdate 2022 1 1, 200)].

(** A yearly series that grows by 10 a year and ends with [v0]. *)
Definition trend (v0 : R) : dataset :=
  [(mkdate 2018 1 1, v0 - 20); (mkdate 2019 1 1, v0 - 10);
   (mkdate 2020 1 1, v0)].

Definition trend_anchor : date := mkdate 2020 1 1.

(** Two monthly observations. *)
Definition two_months : dataset :=
  [(mkdate 2020 1 1, 100); (mkdate 2020 2 1, 110)].

(** A segment from January to March. *)
Definition winter_segment : row :=
  mkrow (mkdate 2020 1 1) 100 (mkdate 2020 3 1) 120 [] 0 0 [].

(** A segment of twelve steps. *)
Definition year_segment : row :=
  mkrow (mkdate 2020 1 1) 100 (mkdate 2021 1 1) 150 [] 12 0 [].

(** A segment that starts from zero. *)
Definition zero_segment : row :=
  mkrow (mkdate 2020 1 1) 0 (mkdate 2021 1 1) 150 [] 1 0 [].

End Scenarios.

Import Scenarios.

Module CalendarFacts.

Local Open Scope Z_scope.

Lemma is_leap_spec y :
  is_leap y = true <-> y mod 4 = 0 /\ (y mod 100 <> 0 \/ y mod 400 = 0).
Proof.
  unfold is_leap.
  rewrite andb_true_iff, orb_true_iff, negb_true_iff, !Z.eqb_eq, Z.eqb_neq.
  tauto.
Qed.

Lemma days_in_month_bounds y m : 28 <= days_in_month y m <= 31.
Proof.
  unfold days_in_month.
  destruct m as [|[ [ [|[]|]|[|[]|]|]|[ [|[]|]| [|[]|]|]|]|]; try lia;
    destruct (is_leap y); lia.
Qed.

Lemma days_before_year_succ y :
  days_before_year (y + 1) =
  days_before_year y + (if is_leap y then 366 else 365).
Proof.
  unfold days_before_year.
  replace (y + 1 - 1) with y by lia.
  destruct (is_leap y) eqn:E.
  - apply is_leap_spec in E. Z.div_mod_to_equations. lia.
  - assert (H : ~ (y mod 4 = 0 /\ (y mod 100 <> 0 \/ y mod 400 = 0))).
    { intro H. apply is_leap_spec in H. congruence. }
    Z.div_mod_to_equations. lia.
Qed.

Ltac month_cases m :=
  let H := fresh in
  assert (H : m = 1 \/ m = 2 \/ m = 3 \/ m = 4 \/ m = 5 \/ m = 6 \/ m = 7
              \/ m = 8 \/ m = 9 \/ m = 10 \/ m = 11 \/ m = 12) by lia;
  repeat (destruct H as [H | H]); subst m.

Lemma days_before_month_succ y m :
  1 <= m <= 11 ->
  days_before_month y (m + 1) = days_before_month y m + days_in_month y m.
Proof.
  intros Hm. month_cases m; try lia;
    unfold days_before_month, days_in_month; simpl;
    destruct (is_leap y); reflexivity.
Qed.

Lemma days_before_december y :
  days_before_month y 12 + 31 = if is_leap y then 366 else 365.
Proof.
  unfold days_before_month; simpl. destruct (is_leap y); reflexivity.
Qed.

Lemma valid_dateb_spec d : valid_dateb d = true <-> valid_date d.
Proof.
  unfold valid_dateb, valid_date.
  rewrite !andb_true_iff, !Z.leb_le. tauto.
Qed.

Lemma toordinal_next_day d :
  valid_date d -> toordinal (next_day d) = toordinal d + 1.
Proof.
  destruct d as [y m dd]. unfold valid_date, next_day, toordinal; simpl.
  intros [Hm Hd].
  destruct (dd <? days_in_month y m) eqn:E1; simpl; [lia|].
  apply Z.ltb_ge in E1.
  destruct (m <? 12) eqn:E2; simpl.
  - apply Z.ltb_lt in E2. rewrite days_before_month_succ by lia. lia.
  - apply Z.ltb_ge in E2. assert (m = 12) by lia. subst m.
    rewrite days_before_year_succ.
    pose proof (days_before_december y) as H12.
    change (days_in_month y 12) with 31 in *.
    change (days_before_month (y + 1) 1) with
      (0 + (if (2 <? 1) && is_leap (y + 1) then 1 else 0)).
    simpl. lia.
Qed.

Lemma toordinal_prev_day d :
  valid_date d -> toordinal (prev_day d) = toordinal d - 1.
Proof.
  destruct d as [y m dd]. unfold valid_date, prev_day, toordinal; simpl.
  intros [Hm Hd].
  destruct (1 <? dd) eqn:E1; simpl; [lia|].
  apply Z.ltb_ge in E1.
  destruct (1 <? m) eqn:E2; simpl.
  - apply Z.ltb_lt in E2.
    pose proof (days_before_month_succ y (m - 1)) as H.
    replace (m - 1 + 1) with m in H by lia. rewrite H by lia. lia.
  - apply Z.ltb_ge in E2. assert (m = 1) by lia. subst m.
    pose proof (days_before_year_succ (y - 1)) as Hy.
    replace (y - 1 + 1) with y in Hy by lia.
    pose proof (days_before_december (y - 1)) as H12.
    change (days_before_month y 1) with
      (0 + (if (2 <? 1) && is_leap y then 1 else 0)).
    simpl. lia.
Qed.

Lemma valid_next_day d : valid_date d -> valid_date (next_day d).
Proof.
  destruct d as [y m dd]. unfold valid_date, next_day; simpl.
  intros [Hm Hd].
  destruct (dd <? days_in_month y m) eqn:E1; simpl.
  - apply Z.ltb_lt in E1. lia.
  - destruct (m <? 12) eqn:E2; simpl.
    + apply Z.ltb_lt in E2.
      pose proof (days_in_month_bounds y (m + 1)). lia.
    + pose proof (days_in_month_bounds (y + 1) 1). lia.
Qed.

Lemma iter_next_day n d :
  valid_date d ->
  valid_date (Nat.iter n next_day d)
  /\ toordinal (Nat.iter n next_day d) = toordinal d + Z.of_nat n.
Proof.
  intros Hd. induction n as [|n [IHv IHo]].
  - simpl. split; [assumption | lia].
  - rewrite Nat.iter_succ. split.
    + apply valid_next_day, IHv.
    + rewrite toordinal_next_day by assumption. lia.
Qed.

Lemma add_days_of_nat d n :
  add_days d (Z.of_nat n) = Nat.iter n next_day d.
Proof.
  unfold add_days.
  destruct (0 <=? Z.of_nat n) eqn:E.
  - now rewrite Nat2Z.id.
  - apply Z.leb_gt in E. lia.
Qed.

Lemma toordinal_add_days d n :
  valid_date d -> toordinal (add_days d (Z.of_nat n)) = toordinal d + Z.of_nat n.
Proof. intros. rewrite add_days_of_nat. now apply iter_next_day. Qed.

Lemma valid_add_days d n :
  valid_date d -> valid_date (add_days d (Z.of_nat n)).
Proof. intros. rewrite add_days_of_nat. now apply iter_next_day. Qed.

Lemma month_period_div d :
  1 <= month d <= 12 ->
  month_period d / 12 = year d /\ month_period d mod 12 + 1 = month d.
Proof.
  unfold month_period. intros Hm.
  split; Z.div_mod_to_equations; lia.
Qed.

Lemma toordinal_month_base d :
  1 <= month d <= 12 -> toordinal d = month_base (month_period d) + day d.
Proof.
  intros Hm. destruct (month_period_div d Hm) as [Hy Hmm].
  unfold month_base. rewrite Hy, Hmm. reflexivity.
Qed.

Lemma month_period_month_end p : month_period (month_end p) = p.
Proof.
  unfold month_period, month_end; simpl. Z.div_mod_to_equations. lia.
Qed.

Lemma valid_month_end p : valid_date (month_end p).
Proof.
  unfold valid_date, month_end; simpl.
  pose proof (days_in_month_bounds (p / 12) (p mod 12 + 1)).
  split; [Z.div_mod_to_equations|]; lia.
Qed.

Lemma toordinal_month_end p :
  toordinal (month_end p) =
  month_base p + days_in_month (p / 12) (p mod 12 + 1).
Proof. reflexivity. Qed.

Lemma month_base_succ p :
  month_base (p + 1) = month_base p + days_in_month (p / 12) (p mod 12 + 1).
Proof.
  unfold month_base.
  assert (Hr : 0 <= p mod 12 < 12) by (apply Z.mod_pos_bound; lia).
  destruct (Z.eq_dec (p mod 12) 11) as [E | E].
  - assert (Hq : (p + 1) / 12 = p / 12 + 1) by (Z.div_mod_to_equations; lia).
    assert (Hm : (p + 1) mod 12 = 0) by (Z.div_mod_to_equations; lia).
    rewrite Hq, Hm, E, days_before_year_succ.
    pose proof (days_before_december (p / 12)) as H12.
    change (11 + 1) with 12.
    change (days_in_month (p / 12) 12) with 31.
    change (days_before_month (p / 12 + 1) (0 + 1)) with
      (0 + (if (2 <? 1) && is_leap (p / 12 + 1) then 1 else 0)).
    simpl. lia.
  - assert (Hq : (p + 1) / 12 = p / 12) by (Z.div_mod_to_equations; lia).
    assert (Hm : (p + 1) mod 12 = p mod 12 + 1)
      by (Z.div_mod_to_equations; lia).
    rewrite Hq, Hm, days_before_month_succ by lia. lia.
Qed.

Lemma month_base_step (n : nat) p :
  month_base p + days_in_month (p / 12) (p mod 12 + 1)
  <= month_base (p + Z.of_nat (S n)).
Proof.
  induction n as [|n IH].
  - change (Z.of_nat 1) with 1. rewrite month_base_succ. lia.
  - replace (p + Z.of_nat (S (S n))) with (p + Z.of_nat (S n) + 1) by lia.
    rewrite month_base_succ.
    pose proof (days_in_month_bounds ((p + Z.of_nat (S n)) / 12)
                  ((p + Z.of_nat (S n)) mod 12 + 1)).
    lia.
Qed.

Lemma month_base_lt p q :
  p < q ->
  month_base p + days_in_month (p / 12) (p mod 12 + 1) <= month_base q.
Proof.
  intros H. replace q with (p + Z.of_nat (S (Z.to_nat (q - p - 1)))) by lia.
  apply month_base_step.
Qed.

(** Dates of an earlier month are earlier dates. *)
Lemma month_period_lt_toordinal d1 d2 :
  valid_date d1 -> valid_date d2 ->
  month_period d1 < month_period d2 -> toordinal d1 < toordinal d2.
Proof.
  intros [Hm1 Hd1] [Hm2 Hd2] Hlt.
  rewrite (toordinal_month_base d1), (toordinal_month_base d2) by assumption.
  pose proof (month_base_lt _ _ Hlt) as H.
  destruct (month_period_div d1 Hm1) as [Hy Hmm]. rewrite Hy, Hmm in H.
  lia.
Qed.

(** A date is not after the end of its month. *)
Lemma toordinal_le_month_end d :
  valid_date d -> toordinal d <= toordinal (month_end (month_period d)).
Proof.
  intros [Hm Hd]. rewrite toordinal_month_end, (toordinal_month_base d Hm).
  destruct (month_period_div d Hm) as [Hy Hmm]. rewrite Hy, Hmm. lia.
Qed.

Lemma year_end_month_end y : year_end y = month_end (y * 12 + 11).
Proof.
  unfold year_end, month_end.
  assert (Hq : (y * 12 + 11) / 12 = y) by (Z.div_mod_to_equations; lia).
  assert (Hm : (y * 12 + 11) mod 12 = 11) by (Z.div_mod_to_equations; lia).
  rewrite Hq, Hm. reflexivity.
Qed.

Lemma valid_year_end y : valid_date (year_end y).
Proof. rewrite year_end_month_end. apply valid_month_end. Qed.

Lemma year_lt_month_period d1 d2 :
  valid_date d1 -> valid_date d2 ->
  year d1 < year d2 -> month_period d1 < month_period d2.
Proof. unfold valid_date, month_period. lia. Qed.

Lemma year_lt_toordinal d1 d2 :
  valid_date d1 -> valid_date d2 ->
  year d1 < year d2 -> toordinal d1 < toordinal d2.
Proof.
  intros H1 H2 Hlt. apply month_period_lt_toordinal; try assumption.
  now apply year_lt_month_period.
Qed.

Lemma toordinal_le_year_end d :
  valid_date d -> toordinal d <= toordinal (year_end (year d)).
Proof.
  destruct d as [y m dd]. intros [Hm Hdd].
  unfold toordinal, year_end; simpl in *.
  assert (H : days_before_month y m + dd <= days_before_month y 12 + 31).
  { revert Hdd.
    month_cases m;
      cbv beta iota delta [days_before_month days_in_month Z.ltb Z.compare
                           Pos.compare Pos.compare_cont andb];
      destruct (is_leap y); lia. }
  lia.
Qed.

(** Two existing dates with the same day number are the same date. *)
Lemma toordinal_inj a b :
  valid_date a -> valid_date b -> toordinal a = toordinal b -> a = b.
Proof.
  intros Ha Hb H.
  assert (Hp : month_period a = month_period b).
  { destruct (Z.lt_total (month_period a) (month_period b)) as [Hlt | [He | Hgt]].
    - pose proof (month_period_lt_toordinal a b Ha Hb Hlt). lia.
    - assumption.
    - pose proof (month_period_lt_toordinal b a Hb Ha Hgt). lia. }
  destruct Ha as [Hma _], Hb as [Hmb _].
  rewrite (toordinal_month_base a), (toordinal_month_base b), Hp in H
    by assumption.
  destruct (month_period_div a Hma) as [Hya Hmma].
  destruct (month_period_div b Hmb) as [Hyb Hmmb].
  rewrite Hp in Hya, Hmma.
  destruct a as [ya ma da], b as [yb mb db]; cbn [year month day] in *.
  f_equal; lia.
Qed.

(** Period numbers order valid dates. *)
Lemma period_lt_toordinal u d1 d2 :
  valid_date d1 -> valid_date d2 ->
  period u d1 < period u d2 -> toordinal d1 < toordinal d2.
Proof.
  destruct u; simpl; intros H1 H2 Hlt.
  - assumption.
  - now apply month_period_lt_toordinal.
  - now apply year_lt_toordinal.
Qed.

End CalendarFacts.

Import CalendarFacts.

(** ** Date ranges *)

Module RangeFacts.

Local Open Scope Z_scope.

Lemma filter_all_true {A} (f : A -> bool) l :
  (forall x, In x l -> f x = true) -> filter f l = l.
Proof.
  induction l as [|a l IH]; simpl; intros H; [reflexivity|].
  rewrite (H a) by now left. f_equal. apply IH. intros x Hx. apply H. now right.
Qed.

Lemma filter_seq_prefix {A} (f : A -> bool) (g : nat -> A) n :
  (forall i, (i < n)%nat -> f (g i) = true) ->
  f (g n) = false ->
  filter f (map g (seq 0 (n + 1))) = map g (seq 0 n).
Proof.
  intros Hin Hout.
  rewrite seq_app, map_app, filter_app. simpl. rewrite Hout, app_nil_r.
  apply filter_all_true. intros x Hx.
  apply in_map_iff in Hx. destruct Hx as [i [<- Hi]].
  apply in_seq in Hi. apply Hin. lia.
Qed.

Lemma in_range_test s e c :
  date_leb s c && date_leb c e && negb (date_eqb c e) = true
  <-> toordinal s <= toordinal c < toordinal e.
Proof.
  unfold date_leb, date_eqb.
  rewrite !andb_true_iff, negb_true_iff, !Z.leb_le, Z.eqb_neq. lia.
Qed.

Lemma in_range_test_false s e c :
  toordinal e <= toordinal c ->
  date_leb s c && date_leb c e && negb (date_eqb c e) = false.
Proof.
  intros H. apply not_true_iff_false. rewrite in_range_test. lia.
Qed.

Lemma filter_filter_and {A} (f g : A -> bool) l :
  filter g (filter f l) = filter (fun x => f x && g x) l.
Proof.
  induction l as [|a l IH]; [reflexivity|].
  cbn [filter]. destruct (f a); cbn [filter andb];
    [destruct (g a); now rewrite IH | exact IH].
Qed.

Lemma date_range_left_trimmed u s e :
  toordinal s <> toordinal e ->
  date_range_left u s e
  = filter (fun c => negb (date_eqb c e)) (date_range_both u s e).
Proof.
  intros H. unfold date_range_left, date_eqb at 1.
  now destruct (Z.eqb_spec (toordinal s) (toordinal e)).
Qed.

Lemma date_range_left_kept u s e :
  toordinal s = toordinal e -> date_range_left u s e = date_range_both u s e.
Proof.
  intros H. unfold date_range_left, date_eqb at 1.
  now destruct (Z.eqb_spec (toordinal s) (toordinal e)).
Qed.

(** Between two different valid dates, the days of the range are those
    from [s] up to the day before [e]. *)
Lemma date_range_left_days s e :
  valid_date s -> toordinal s <> toordinal e ->
  date_range_left Days s e =
  map (fun i => add_days s (Z.of_nat i))
      (seq 0 (Z.to_nat (toordinal e - toordinal s))).
Proof.
  intros Hs Hne. rewrite date_range_left_trimmed by assumption.
  unfold date_range_both.
  destruct (Z_lt_le_dec (toordinal e) (toordinal s)) as [Hlt | Hle].
  - replace (Z.to_nat (toordinal e - toordinal s + 1)) with 0%nat by lia.
    replace (Z.to_nat (toordinal e - toordinal s)) with 0%nat by lia.
    reflexivity.
  - replace (Z.to_nat (toordinal e - toordinal s + 1))
      with (Z.to_nat (toordinal e - toordinal s) + 1)%nat by lia.
    apply (filter_seq_prefix (fun c => negb (date_eqb c e))
             (fun i => add_days s (Z.of_nat i))).
    + intros i Hi. unfold date_eqb. apply negb_true_iff, Z.eqb_neq.
      rewrite toordinal_add_days by assumption. lia.
    + unfold date_eqb. apply negb_false_iff, Z.eqb_eq.
      rewrite toordinal_add_days by assumption. lia.
Qed.

(** Between two different valid dates, the month ends of the range are
    those of the months from the one of [s] up to the one before that of
    [e]. *)
Lemma date_range_left_months s e :
  valid_date s -> valid_date e -> toordinal s <> toordinal e ->
  date_range_left Months s e =
  map (fun i => month_end (month_period s + Z.of_nat i))
      (seq 0 (Z.to_nat (month_period e - month_period s))).
Proof.
  intros Hs He Hne. rewrite date_range_left_trimmed by assumption.
  unfold date_range_both. rewrite filter_filter_and.
  apply (filter_seq_prefix
           (fun c => date_leb s c && date_leb c e && negb (date_eqb c e))
           (fun i => month_end (month_period s + Z.of_nat i))).
  - intros i Hi. apply in_range_test. split.
    + destruct i as [|i].
      * rewrite Z.add_0_r. now apply toordinal_le_month_end.
      * apply Z.lt_le_incl, month_period_lt_toordinal;
          [assumption | apply valid_month_end |].
        rewrite month_period_month_end. lia.
    + apply month_period_lt_toordinal;
        [apply valid_month_end | assumption |].
      rewrite month_period_month_end. lia.
  - apply in_range_test_false.
    destruct (Z_le_gt_dec (month_period s) (month_period e)) as [Hle | Hgt].
    + rewrite Z2Nat.id by lia.
      replace (month_period s + (month_period e - month_period s))
        with (month_period e) by lia.
      now apply toordinal_le_month_end.
    + replace (Z.to_nat (month_period e - month_period s)) with 0%nat by lia.
      rewrite Z.add_0_r.
      apply Z.lt_le_incl, Z.lt_le_trans with (toordinal s).
      * apply month_period_lt_toordinal; [assumption | assumption | lia].
      * now apply toordinal_le_month_end.
Qed.

Lemma date_range_left_years s e :
  valid_date s -> valid_date e -> toordinal s <> toordinal e ->
  date_range_left Years s e =
  map (fun i => year_end (year s + Z.of_nat i))
      (seq 0 (Z.to_nat (year e - year s))).
Proof.
  intros Hs He Hne. rewrite date_range_left_trimmed by assumption.
  unfold date_range_both. rewrite filter_filter_and.
  apply (filter_seq_prefix
           (fun c => date_leb s c && date_leb c e && negb (date_eqb c e))
           (fun i => year_end (year s + Z.of_nat i))).
  - intros i Hi. apply in_range_test. split.
    + destruct i as [|i].
      * rewrite Z.add_0_r. now apply toordinal_le_year_end.
      * apply Z.lt_le_incl, year_lt_toordinal;
          [assumption | apply valid_year_end |].
        simpl. lia.
    + apply year_lt_toordinal; [apply valid_year_end | assumption |].
      simpl. lia.
  - apply in_range_test_false.
    destruct (Z_le_gt_dec (year s) (year e)) as [Hle | Hgt].
    + rewrite Z2Nat.id by lia.
      replace (year s + (year e - year s)) with (year e) by lia.
      now apply toordinal_le_year_end.
    + replace (Z.to_nat (year e - year s)) with 0%nat by lia.
      rewrite Z.add_0_r.
      apply Z.lt_le_incl, Z.lt_le_trans with (toordinal s).
      * apply year_lt_toordinal; [assumption | assumption | lia].
      * now apply toordinal_le_year_end.
Qed.

End RangeFacts.

Import RangeFacts.

(** ** The gap check *)

Module GapFacts.

Local Open Scope Z_scope.

Lemma gap_check_empty u : u <> Days -> gap_check [] u = Raised TypeError.
Proof. destruct u; [congruence | reflexivity | reflexivity]. Qed.

Lemma gap_check_period ds u :
  ds <> [] \/ u = Days ->
  gap_check ds u =
  match filter (fun x => 1 <? x) (diff (map (fun r => period u (fst r)) ds)) with
  | [] => Ok tt
  | _ :: _ => Raised GapError
  end.
Proof.
  intros H. destruct u; [reflexivity | |];
    (destruct ds as [|r ds];
     [destruct H as [H | H]; [congruence | discriminate] | reflexivity]).
Qed.

Lemma filter_gaps_nil l :
  filter (fun x => 1 <? x) l = [] <-> Forall (fun x => x <= 1) l.
Proof.
  induction l as [|a l IH]; simpl.
  - split; [constructor | reflexivity].
  - destruct (1 <? a) eqn:E.
    + apply Z.ltb_lt in E. split; [discriminate|].
      intros H. inversion H; subst. lia.
    + apply Z.ltb_ge in E. rewrite IH. split.
      * intros H. now constructor.
      * intros H. now inversion H.
Qed.

Lemma gap_check_passes ds u :
  ds <> [] \/ u = Days ->
  Forall (fun x => x <= 1) (diff (map (fun r => period u (fst r)) ds)) ->
  gap_check ds u = Ok tt.
Proof.
  intros Hne H. rewrite gap_check_period by assumption.
  apply filter_gaps_nil in H. now rewrite H.
Qed.

Lemma gap_check_ok_diffs ds u :
  gap_check ds u = Ok tt ->
  Forall (fun x => x <= 1) (diff (map (fun r => period u (fst r)) ds)).
Proof.
  intros H.
  assert (Hne : ds <> [] \/ u = Days).
  { destruct ds as [|r ds]; [|left; discriminate].
    destruct u; [now right | discriminate | discriminate]. }
  rewrite gap_check_period in H by assumption.
  apply filter_gaps_nil. destruct (filter _ _); [reflexivity | discriminate].
Qed.

Lemma gap_check_raised ds u :
  gap_check ds u = Raised GapError
  <-> Exists (fun x => 1 < x) (diff (map (fun r => period u (fst r)) ds)).
Proof.
  destruct ds as [|r0 ds].
  { split.
    - destruct u; discriminate.
    - cbn. intros H. inversion H. }
  rewrite gap_check_period by (left; discriminate).
  set (l := diff _). split.
  - intros H. destruct (filter (fun x => 1 <? x) l) as [|a t] eqn:E;
      [discriminate|].
    assert (Ha : In a (filter (fun x => 1 <? x) l)) by (rewrite E; now left).
    apply filter_In in Ha. destruct Ha as [Ha Hlt]. apply Z.ltb_lt in Hlt.
    apply Exists_exists. now exists a.
  - intros H. apply Exists_exists in H. destruct H as [a [Ha Hlt]].
    destruct (filter (fun x => 1 <? x) l) as [|b t] eqn:E; [|reflexivity].
    assert (Hin : In a (filter (fun x => 1 <? x) l)).
    { apply filter_In. split; [assumption | now apply Z.ltb_lt]. }
    rewrite E in Hin. destruct Hin.
Qed.

Lemma gap_check_contiguous ds u :
  ds <> [] \/ u = Days -> contiguous u ds -> gap_check ds u = Ok tt.
Proof.
  intros Hne H. apply gap_check_passes; [assumption|].
  unfold contiguous, periods in H. rewrite map_map in H.
  eapply Forall_impl; [|exact H]. intros z Hz. cbv beta in Hz. lia.
Qed.

Lemma diff_middle l a b t : In (b - a) (diff (l ++ a :: b :: t)).
Proof.
  induction l as [|c l IH].
  - simpl. now left.
  - destruct l as [|c' l].
    + simpl in *. right. exact IH.
    + change (In (b - a) (c' - c :: diff ((c' :: l) ++ a :: b :: t))).
      right. exact IH.
Qed.

(** Dropping an inner element of a list of consecutive numbers leaves a
    step of two. *)
Lemma diff_drop_inner l1 x l2 :
  l1 <> [] -> l2 <> [] ->
  Forall (fun d => d = 1) (diff (l1 ++ x :: l2)) ->
  Exists (fun d => 1 < d) (diff (l1 ++ l2)).
Proof.
  intros H1 H2 Hall.
  destruct (exists_last H1) as [l1' [a ->]].
  destruct l2 as [|b l2']; [congruence|].
  rewrite Forall_forall in Hall.
  assert (Ha : x - a = 1).
  { apply Hall. rewrite <- app_assoc. apply diff_middle. }
  assert (Hb : b - x = 1).
  { apply Hall.
    apply diff_middle. }
  apply Exists_exists. exists (b - a). split; [|lia].
  rewrite <- app_assoc. apply diff_middle.
Qed.

End GapFacts.

(** ** Rates and generated values *)

Module RateFacts.

Local Open Scope R_scope.

Lemma INR_pos_of_ge1 k : (1 <= k)%nat -> 0 < INR k.
Proof. intros H. apply lt_0_INR. lia. Qed.

(** The [k]-th power undoes the [k]-th root of a positive number. *)
Lemma root_pow b k : 0 < b -> (1 <= k)%nat -> Rpower b (1 / INR k) ^ k = b.
Proof.
  intros Hb Hk. pose proof (INR_pos_of_ge1 k Hk) as HK.
  rewrite <- Rpower_pow by apply exp_pos.
  rewrite Rpower_mult.
  replace (1 / INR k * INR k) with 1 by (field; lra).
  now apply Rpower_1.
Qed.

Lemma float_root_positive b k :
  0 < b -> float_root b k = Ok (Rpower b (1 / INR k)).
Proof.
  intros Hb. unfold float_root. destruct (Rlt_dec 0 b); [reflexivity | lra].
Qed.

Lemma row_rate_linear x :
  (1 <= timesteps x)%nat ->
  row_rate Linear x =
  Ok ((end_value x - start_value x) / INR (timesteps x)).
Proof.
  intros Hk. unfold row_rate.
  destruct (Nat.eqb_spec (timesteps x) 0); [lia | reflexivity].
Qed.

Lemma row_rate_exponential x :
  (1 <= timesteps x)%nat -> start_value x <> 0 ->
  row_rate Exponential x =
  float_root (end_value x / start_value x) (timesteps x).
Proof.
  intros Hk Hv. unfold row_rate.
  destruct (Req_dec_T (start_value x) 0); [contradiction|].
  destruct (Nat.eqb_spec (timesteps x) 0); [lia | reflexivity].
Qed.

Lemma row_rate_zero_start x :
  start_value x = 0 -> row_rate Exponential x = Raised ZeroDivisionError.
Proof.
  intros Hv. unfold row_rate.
  destruct (Req_dec_T (start_value x) 0); [reflexivity | contradiction].
Qed.

Lemma row_rate_raises rt x e :
  row_rate rt x = Raised e -> e = ZeroDivisionError.
Proof.
  unfold row_rate, float_root. destruct rt.
  - destruct (Nat.eqb (timesteps x) 0); congruence.
  - destruct (Req_dec_T (start_value x) 0); [congruence|].
    destruct (Nat.eqb (timesteps x) 0); [congruence|].
    destruct (Rlt_dec 0 (end_value x / start_value x)); [congruence|].
    destruct (Req_dec_T (end_value x / start_value x) 0); [congruence|].
    destruct (Nat.eqb (timesteps x) 1); congruence.
Qed.

Lemma same_sign_ratio v0 v1 :
  (0 < v0 /\ 0 < v1) \/ (v0 < 0 /\ v1 < 0) -> 0 < v1 / v0.
Proof.
  intros [[H0 H1] | [H0 H1]].
  - now apply Rdiv_lt_0_compat.
  - replace (v1 / v0) with ((- v1) / (- v0)) by (field; lra).
    apply Rdiv_lt_0_compat; lra.
Qed.

(** [collect] raises what a row raises. *)
Lemma collect_raised {A} (l : list (outcome A)) e0 :
  (forall e, In (Raised e) l -> e = e0) ->
  In (Raised e0) l -> collect l = Raised e0.
Proof.
  induction l as [|o l IH]; simpl; intros Hall Hin; [contradiction|].
  assert (Hall' : forall e, In (Raised e) l -> e = e0)
    by (intros e He; apply Hall; now right).
  destruct o as [a | e |].
  - destruct Hin as [Hin | Hin]; [discriminate|].
    now rewrite (IH Hall' Hin).
  - f_equal. apply Hall. now left.
  - destruct Hin as [Hin | Hin]; [discriminate|].
    now rewrite (IH Hall' Hin).
Qed.

Lemma add_rate_zero_start rows :
  Exists (fun x => start_value x = 0) rows ->
  add_rate rows Exponential = Raised ZeroDivisionError.
Proof.
  intros H. apply Exists_exists in H. destruct H as [x [Hx Hv]].
  unfold add_rate. apply collect_raised.
  - intros e He. apply in_map_iff in He. destruct He as [y [Hy _]].
    destruct (row_rate Exponential y) as [r | e' |] eqn:E; simpl in Hy;
      try discriminate.
    injection Hy as <-. now apply row_rate_raises in E.
  - apply in_map_iff. exists x. split; [|assumption].
    now rewrite row_rate_zero_start.
Qed.

Lemma interpolate_row_length rt x :
  length (interpolate_row rt x) = timesteps x.
Proof.
  unfold interpolate_row. destruct rt; now rewrite length_map, length_seq.
Qed.

Lemma nth_map_seq {A} (f : nat -> A) n k d :
  (n < k)%nat -> nth n (map f (seq 0 k)) d = f n.
Proof.
  intros H. rewrite (nth_indep _ d (f 0%nat))
    by (now rewrite length_map, length_seq).
  rewrite (map_nth f (seq 0 k) 0%nat n), seq_nth by assumption. reflexivity.
Qed.

Lemma interpolate_row_nth rt x n :
  (n < timesteps x)%nat ->
  nth n (interpolate_row rt x) 0 =
  match rt with
  | Linear => start_value x + INR n * rate x
  | Exponential => start_value x * rate x ^ n
  end.
Proof.
  intros H. unfold interpolate_row. destruct rt.
  - exact (nth_map_seq (fun n => start_value x + INR n * rate x) n _ 0 H).
  - exact (nth_map_seq (fun n => start_value x * rate x ^ n) n _ 0 H).
Qed.

Lemma extrapolated_values_length rt r v ft :
  length (extrapolated_values rt r v ft) = (ft + 1)%nat.
Proof.
  unfold extrapolated_values. destruct rt; now rewrite length_map, length_seq.
Qed.

Lemma extrapolated_values_nth rt r v ft n :
  (n <= ft)%nat ->
  nth n (extrapolated_values rt r v ft) 0 =
  match rt with
  | Linear => v + r * INR n
  | Exponential => v * r ^ n
  end.
Proof.
  intros H. assert (Hn : (n < ft + 1)%nat) by lia.
  unfold extrapolated_values. destruct rt.
  - exact (nth_map_seq (fun n => v + r * INR n) n _ 0 Hn).
  - exact (nth_map_seq (fun n => v * r ^ n) n _ 0 Hn).
Qed.

End RateFacts.

Import GapFacts RateFacts.

(** ** The filling pipeline *)

Module PipelineFacts.

Local Open Scope Z_scope.

Lemma add_rate_fields rows rt rows' :
  add_rate rows rt = Ok rows' ->
  map date_range rows' = map date_range rows
  /\ map timesteps rows' = map timesteps rows.
Proof.
  unfold add_rate. revert rows'.
  induction rows as [|x rows IH]; simpl; intros rows' H.
  - injection H as <-. now split.
  - destruct (row_rate rt x) as [r | e |]; simpl in H.
    + destruct (collect _) as [t | e |]; try discriminate.
      injection H as <-. destruct (IH t eq_refl) as [Hd Ht].
      simpl. now rewrite Hd, Ht.
    + discriminate.
    + destruct (collect _); discriminate.
Qed.

Lemma map_fst_combine {A B} (a : list A) (b : list B) :
  length a = length b -> map fst (combine a b) = a.
Proof.
  revert b. induction a as [|x a IH]; intros [|y b] H; simpl in *;
    try reflexivity; try discriminate.
  f_equal. apply IH. lia.
Qed.

Lemma length_concat_map {A B} (la : list (list A)) (lb : list (list B)) :
  map (@length A) la = map (@length B) lb ->
  length (concat la) = length (concat lb).
Proof.
  revert lb. induction la as [|a la IH]; intros [|b lb] H; simpl in *;
    try reflexivity; try discriminate.
  injection H as Hh Ht. rewrite !length_app, Hh. f_equal. now apply IH.
Qed.

(** A filled table is the flattened ranges of the segments in order,
    followed by the saved last row. *)
Lemma fill_gaps_dates ds rt u out :
  fill_gaps ds rt u = Ok out ->
  exists filled,
    out = filled ++ last_row ds
    /\ map fst filled =
       concat (map (fun x => date_range_left u (start_date x) (end_date x))
                   (add_bounds ds)).
Proof.
  intros H. unfold fill_gaps in H.
  destruct (add_bounds ds) as [|x0 segs] eqn:Eseg; [discriminate|].
  remember (x0 :: segs) as rows eqn:Erows.
  set (with_range := fun x =>
         set_date_range (date_range_left u (start_date x) (end_date x)) x) in *.
  assert (Hadd : add_daterange rows u = Ok (map with_range rows))
    by (subst rows; reflexivity).
  rewrite Hadd in H. cbn [bind] in H.
  destruct (add_rate (add_timesteps (map with_range rows)) rt)
    as [data' | e |] eqn:Er; cbn [bind] in H; try discriminate.
  injection H as <-.
  exists (interpolated_dataset (add_interpolated_values data' rt)).
  split; [reflexivity|].
  destruct (add_rate_fields _ _ _ Er) as [Hd Ht].
  assert (Hdates : map date_range data' =
                   map (fun x => date_range_left u (start_date x) (end_date x))
                       rows).
  { rewrite Hd. unfold add_timesteps. rewrite !map_map. reflexivity. }
  assert (Hsteps : map timesteps data'
                   = map (@length date) (map date_range data')).
  { rewrite Ht, Hd. unfold add_timesteps. rewrite !map_map. reflexivity. }
  unfold interpolated_dataset, add_interpolated_values.
  rewrite !map_map. cbn [date_range interpolated set_interpolated].
  change (map (fun x : row => date_range x) data') with (map date_range data').
  rewrite <- Hdates. apply map_fst_combine.
  apply length_concat_map.
  transitivity (map timesteps data'); [symmetry; exact Hsteps|].
  rewrite map_map.
  apply map_ext. intros a. now rewrite interpolate_row_length.
Qed.

(** *** The saved last row *)

Lemma ascending_snoc l x :
  ascending (l ++ [x]) -> Forall (fun d => toordinal d < toordinal x) l.
Proof.
  unfold ascending. induction l as [|a l IH]; simpl; intros H; [constructor|].
  apply StronglySorted_inv in H. destruct H as [Hs Hall].
  constructor.
  - rewrite Forall_forall in Hall. apply Hall, in_or_app. right. now left.
  - now apply IH.
Qed.

Lemma last_cons {A} (l : list A) a m : last (a :: l) m = last l a.
Proof.
  revert a m. induction l as [|b l IH]; intros a m; [reflexivity|].
  transitivity (last l b); [exact (IH b m) | symmetry; exact (IH b a)].
Qed.

Lemma max_date_from (ds : dataset) m :
  ascending (m :: map fst ds) ->
  fold_left (fun acc r =>
               match acc with
               | None => Some (fst r)
               | Some m => if date_ltb m (fst r) then Some (fst r) else Some m
               end) ds (Some m)
  = Some (last (map fst ds) m).
Proof.
  revert m. induction ds as [|r ds IH]; intros m H; [reflexivity|].
  cbn [fold_left map].
  apply StronglySorted_inv in H. destruct H as [Hs Hall].
  assert (Hlt : date_ltb m (fst r) = true).
  { apply Z.ltb_lt. now inversion Hall. }
  rewrite Hlt, (IH (fst r) Hs).
  f_equal. symmetry. apply last_cons.
Qed.

Lemma last_row_ascending (body : dataset) final :
  ascending (map fst (body ++ [final])) ->
  last_row (body ++ [final]) = [final].
Proof.
  intros H. unfold last_row, max_date.
  assert (Hmax : fold_left
            (fun acc r =>
               match acc with
               | None => Some (fst r)
               | Some m => if date_ltb m (fst r) then Some (fst r) else Some m
               end) (body ++ [final]) None = Some (fst final)).
  { destruct body as [|r body].
    - reflexivity.
    - cbn [app fold_left]. rewrite max_date_from by exact H.
      rewrite map_app. cbn [map]. now rewrite last_last. }
  rewrite Hmax. clear Hmax.
  rewrite map_app in H. cbn [map] in H. apply ascending_snoc in H.
  rewrite filter_app. cbn [filter].
  unfold date_eqb at 2. rewrite Z.eqb_refl.
  replace (filter _ body) with (@nil (date * R)); [reflexivity|].
  symmetry. induction body as [|r body IH]; [reflexivity|].
  cbn [map] in H. inversion H as [|? ? Hr Hb]; subst.
  cbn [filter]. unfold date_eqb at 1.
  destruct (Z.eqb_spec (toordinal (fst r)) (toordinal (fst final))); [lia|].
  now apply IH.
Qed.

(** *** Periods of the generated dates *)

Lemma consecutive_S a n :
  consecutive a (S n) = a :: consecutive (a + 1) n.
Proof.
  unfold consecutive. cbn [seq map]. rewrite Z.add_0_r. f_equal.
  rewrite <- seq_shift, map_map. apply map_ext. intros i. lia.
Qed.

Lemma consecutive_app a n m :
  consecutive a (n + m) = consecutive a n ++ consecutive (a + Z.of_nat n) m.
Proof.
  revert a. induction n as [|n IH]; intros a.
  - simpl. now rewrite Z.add_0_r.
  - change (S n + m)%nat with (S (n + m)). rewrite !consecutive_S, IH.
    simpl. do 3 f_equal. lia.
Qed.

Lemma in_consecutive z a n :
  In z (consecutive a n) -> a <= z < a + Z.of_nat n.
Proof.
  unfold consecutive. intros H. apply in_map_iff in H.
  destruct H as [i [<- Hi]]. apply in_seq in Hi. lia.
Qed.

Lemma diff_consecutive a n : Forall (fun x => x = 1) (diff (consecutive a n)).
Proof.
  revert a. induction n as [|n IH]; intros a; [constructor|].
  rewrite consecutive_S. destruct n as [|n]; [constructor|].
  specialize (IH (a + 1)). rewrite consecutive_S in *.
  cbn [diff]. constructor; [lia | exact IH].
Qed.

Lemma nth_period_end_spec u s i :
  valid_date s ->
  valid_date (nth_period_end u s i)
  /\ period u (nth_period_end u s i) = period u s + Z.of_nat i
  /\ on_frequency u (nth_period_end u s i).
Proof.
  intros Hs. destruct u; cbn [nth_period_end period on_frequency].
  - split; [now apply valid_add_days|].
    split; [now apply toordinal_add_days | exact I].
  - split; [apply valid_month_end|].
    split; [apply month_period_month_end | reflexivity].
  - split; [apply valid_year_end|]. repeat split.
Qed.

(** Between two different valid dates the range of a segment is the
    dates of the frequency counted from its start date, one per period
    from the period of the start date up to the one before the period of
    the end date. *)
Lemma date_range_left_form u s e :
  valid_date s -> valid_date e -> toordinal s <> toordinal e ->
  date_range_left u s e
  = map (nth_period_end u s) (seq 0 (Z.to_nat (period u e - period u s))).
Proof.
  intros Hs He Hne. destruct u; cbn [period].
  - now apply date_range_left_days.
  - now apply date_range_left_months.
  - now apply date_range_left_years.
Qed.

(** A segment between different valid dates yields valid dates, one per
    period from the period of its start up to the one before the period
    of its end. *)
Lemma date_range_left_periods u s e :
  valid_date s -> valid_date e -> toordinal s <> toordinal e ->
  periods u (date_range_left u s e)
  = consecutive (period u s) (Z.to_nat (period u e - period u s))
  /\ Forall valid_date (date_range_left u s e).
Proof.
  intros Hs He Hne. rewrite date_range_left_form by assumption.
  unfold periods, consecutive. split.
  - rewrite map_map. apply map_ext. intros i.
    now apply nth_period_end_spec.
  - apply Forall_forall. intros d Hd. apply in_map_iff in Hd.
    destruct Hd as [i [<- _]]. now apply nth_period_end_spec.
Qed.

Lemma period_lt_toordinal_neq u s e :
  valid_date s -> valid_date e -> period u s < period u e ->
  toordinal s <> toordinal e.
Proof.
  intros Hs He Hlt. pose proof (period_lt_toordinal u s e Hs He Hlt). lia.
Qed.

Lemma consecutive_ascending u l a n :
  Forall valid_date l -> periods u l = consecutive a n -> ascending l.
Proof.
  unfold ascending. revert a n.
  induction l as [|x l IH]; intros a n Hv Hp; [constructor|].
  destruct n as [|n]; [discriminate|].
  rewrite consecutive_S in Hp. cbn [periods map] in Hp.
  injection Hp as Hx Hl.
  inversion Hv as [|? ? Hvx Hvl]; subst.
  constructor.
  - now apply (IH (period u x + 1) n).
  - apply Forall_forall. intros y Hy.
    apply (period_lt_toordinal u); [assumption | |].
    + rewrite Forall_forall in Hvl. now apply Hvl.
    + assert (Hin : In (period u y) (consecutive (period u x + 1) n)).
      { rewrite <- Hl. unfold periods. now apply in_map. }
      apply in_consecutive in Hin. lia.
Qed.

(** The dates of the segments of a table with valid dates in increasing
    periods, followed by its last date, fall in consecutive periods. *)
Lemma segments_periods u (t : dataset) (r : date * R) :
  Forall valid_date (map fst (r :: t)) ->
  increasing u (map fst (r :: t)) ->
  let final := last (map fst t) (fst r) in
  let l := concat (map (fun x => date_range_left u (start_date x) (end_date x))
                       (add_bounds (r :: t))) ++ [final] in
  periods u l
  = consecutive (period u (fst r))
      (S (Z.to_nat (period u final - period u (fst r))))
  /\ Forall valid_date l
  /\ period u (fst r) <= period u final.
Proof.
  revert r. induction t as [|r' t IH]; intros [d v] Hv Hi.
  - cbn. rewrite Z.sub_diag. cbn. rewrite Z.add_0_r.
    repeat split; [assumption | lia].
  - destruct r' as [d' v'].
    inversion Hv as [|? ? Hvd Hvt]; subst.
    assert (Hvd' : valid_date d') by now inversion Hvt.
    unfold increasing in Hi. cbn [map periods diff] in Hi.
    inversion Hi as [|? ? Hstep Hrest]; subst.
    specialize (IH (d', v') Hvt Hrest). cbn zeta in IH.
    destruct IH as [IHp [IHv IHle]].
    cbn [fst] in *.
    assert (Hne : toordinal d <> toordinal d')
      by (apply (period_lt_toordinal_neq u); [assumption.. | lia]).
    destruct (date_range_left_periods u d d' Hvd Hvd' Hne) as [Hrp Hrv].
    cbn zeta. cbn [map fst]. rewrite last_cons.
    change (add_bounds ((d, v) :: (d', v') :: t))
      with (mkrow d v d' v' [] 0 0%R [] :: add_bounds ((d', v') :: t)).
    cbn [map concat start_date end_date].
    rewrite <- app_assoc.
    set (rest := concat _ ++ [last (map fst t) d']) in *.
    repeat split.
    + unfold periods in *. rewrite map_app, Hrp, IHp.
      replace (S (Z.to_nat (period u (last (map fst t) d') - period u d)))
        with (Z.to_nat (period u d' - period u d)
              + S (Z.to_nat (period u (last (map fst t) d') - period u d')))%nat
        by lia.
      rewrite consecutive_app. do 2 f_equal. lia.
    + apply Forall_app. now split.
    + lia.
Qed.

Lemma increasing_ascending u l :
  Forall valid_date l -> increasing u l -> ascending l.
Proof.
  intros Hv Hi. apply Sorted_StronglySorted.
  { intros a b c. apply Z.lt_trans. }
  induction l as [|a l IH]; [constructor|].
  inversion Hv as [|? ? Hva Hvl]; subst.
  destruct l as [|b l].
  - repeat constructor.
  - unfold increasing in Hi. cbn [periods map diff] in Hi.
    inversion Hi as [|? ? Hstep Hrest]; subst.
    constructor.
    + now apply IH.
    + constructor. apply (period_lt_toordinal u); try assumption.
      * now inversion Hvl.
      * lia.
Qed.

(** The table built from valid dates in increasing periods of the unit
    is strictly ascending, has no gaps at the unit, and is the generated
    rows followed by the last input row, whose date is not generated. *)
Lemma fill_gaps_invariant u (ds : dataset) rt out :
  Forall valid_date (map fst ds) ->
  increasing u (map fst ds) ->
  fill_gaps ds rt u = Ok out ->
  ascending (map fst out)
  /\ gap_check out u = Ok tt
  /\ exists body filled final,
       ds = body ++ [final] /\ out = filled ++ [final]
       /\ ~ In (fst final) (map fst filled).
Proof.
  intros Hv Hi Hrun.
  destruct ds as [|r t]; [discriminate|].
  destruct (fill_gaps_dates _ _ _ _ Hrun) as [filled [Hout Hfilled]].
  destruct (@exists_last _ (r :: t)) as [body [final Hds]]; [discriminate|].
  assert (Hasc : ascending (map fst (body ++ [final]))).
  { rewrite <- Hds. now apply (increasing_ascending u). }
  assert (Hfinal : last (map fst t) (fst r) = fst final).
  { rewrite <- (last_cons _ _ (fst r)).
    change (fst r :: map fst t) with (map fst (r :: t)).
    rewrite Hds, map_app. cbn [map]. apply last_last. }
  rewrite Hds in Hout at 1. rewrite last_row_ascending in Hout by assumption.
  destruct (segments_periods u t r Hv Hi) as [Hp [Hval _]].
  rewrite <- Hfilled, Hfinal in Hp, Hval.
  assert (Hdates : map fst out = map fst filled ++ [fst final])
    by (rewrite Hout, map_app; reflexivity).
  assert (Hout_asc : ascending (map fst out)).
  { rewrite Hdates. eapply consecutive_ascending; eassumption. }
  repeat split.
  - assumption.
  - apply gap_check_passes.
    { left. rewrite Hout. destruct filled; discriminate. }
    match goal with
    | |- Forall _ (diff ?l) =>
        replace l with (periods u (map fst out))
          by (unfold periods; rewrite map_map; reflexivity)
    end.
    rewrite Hdates, Hp.
    eapply Forall_impl; [|apply diff_consecutive].
    intros z Hz. cbv beta in Hz. lia.
  - exists body, filled, final. repeat split; try assumption.
    rewrite Hdates in Hout_asc. apply ascending_snoc in Hout_asc.
    intros Hin. rewrite Forall_forall in Hout_asc.
    specialize (Hout_asc _ Hin). lia.
Qed.

(** One step of the unit an entry point takes its input at is a step
    forward in the unit of its output. *)
Lemma native_step_increasing op d1 d2 :
  valid_date d1 -> valid_date d2 ->
  period (native_unit op) d2 - period (native_unit op) d1 = 1 ->
  0 < period (target_unit op) d2 - period (target_unit op) d1.
Proof.
  intros H1 H2. destruct op as [u | |]; cbn [native_unit target_unit period].
  - lia.
  - unfold year_period, month_period. destruct H1, H2. lia.
  - intros H.
    assert (toordinal d1 < toordinal d2); [|lia].
    apply month_period_lt_toordinal; try assumption. lia.
Qed.

Lemma contiguous_increasing op (ds : dataset) :
  Forall valid_date (map fst ds) ->
  contiguous (native_unit op) ds ->
  increasing (target_unit op) (map fst ds).
Proof.
  unfold contiguous, increasing.
  generalize (map fst ds) as l. clear ds.
  induction l as [|a l IH]; intros Hv Hc; [constructor|].
  destruct l as [|b l]; [constructor|].
  inversion Hv as [|? ? Hva Hvl]; subst.
  cbn [periods map diff] in *.
  inversion Hc as [|? ? Hstep Hrest]; subst.
  constructor.
  - apply native_step_increasing; try assumption. now inversion Hvl.
  - now apply IH.
Qed.

Lemma run_fill_gaps op ds rt out :
  run op ds rt = Ok out -> fill_gaps ds rt (target_unit op) = Ok out.
Proof.
  destruct op as [u | |]; cbn [run target_unit]; intros H.
  - assumption.
  - change (yearly_to_monthly ds rt)
      with (_ <- gap_check ds Months ;; fill_gaps ds rt Months) in H.
    destruct (gap_check ds Months); [assumption | discriminate..].
  - change (monthly_to_daily ds rt)
      with (_ <- gap_check ds Months ;; fill_gaps ds rt Days) in H.
    destruct (gap_check ds Months); [assumption | discriminate..].
Qed.

(** *** The linear pipeline returns *)

Lemma add_bounds_segments u (ds : dataset) :
  Forall valid_date (map fst ds) ->
  increasing u (map fst ds) ->
  Forall (fun x => valid_date (start_date x) /\ valid_date (end_date x)
                   /\ period u (start_date x) < period u (end_date x))
         (add_bounds ds).
Proof.
  induction ds as [|[d v] ds IH]; intros Hv Hi; [constructor|].
  destruct ds as [|[d' v'] ds]; [constructor|].
  inversion Hv as [|? ? Hvd Hvt]; subst.
  unfold increasing in Hi. cbn [map periods diff fst] in Hi.
  inversion Hi as [|? ? Hstep Hrest]; subst.
  change (add_bounds ((d, v) :: (d', v') :: ds))
    with (mkrow d v d' v' [] 0 0%R [] :: add_bounds ((d', v') :: ds)).
  constructor.
  - cbn [start_date end_date].
    split; [assumption | split; [now inversion Hvt | lia]].
  - apply IH; [exact Hvt | exact Hrest].
Qed.

Lemma add_rate_linear_ok rows :
  Forall (fun x => (1 <= timesteps x)%nat) rows ->
  exists rows', add_rate rows Linear = Ok rows'.
Proof.
  unfold add_rate. induction rows as [|x rows IH]; intros H.
  - now exists [].
  - inversion H as [|? ? Hx Hrows]; subst.
    destruct (IH Hrows) as [rows' Hr].
    cbn [map collect]. rewrite (row_rate_linear x Hx). cbn [bind].
    rewrite Hr. eauto.
Qed.

Lemma date_range_left_length u s e :
  valid_date s -> valid_date e -> toordinal s <> toordinal e ->
  length (date_range_left u s e) = Z.to_nat (period u e - period u s).
Proof.
  intros Hs He Hne.
  destruct (date_range_left_periods u s e Hs He Hne) as [Hp _].
  apply (f_equal (@length Z)) in Hp.
  unfold periods, consecutive in Hp.
  now rewrite !length_map, length_seq in Hp.
Qed.

Lemma fill_gaps_linear_ok u (ds : dataset) :
  Forall valid_date (map fst ds) ->
  increasing u (map fst ds) ->
  (2 <= length ds)%nat ->
  exists out, fill_gaps ds Linear u = Ok out.
Proof.
  intros Hv Hi Hlen.
  pose proof (add_bounds_segments u ds Hv Hi) as Hseg.
  unfold fill_gaps.
  destruct (add_bounds ds) as [|x0 segs] eqn:Eseg.
  { destruct ds as [|[d v] [|[d' v'] ds]]; simpl in *; try lia; discriminate. }
  remember (x0 :: segs) as rows eqn:Erows.
  set (with_range := fun x =>
         set_date_range (date_range_left u (start_date x) (end_date x)) x).
  assert (Hadd : add_daterange rows u = Ok (map with_range rows))
    by (subst rows; reflexivity).
  rewrite Hadd. cbn [bind].
  destruct (add_rate_linear_ok (add_timesteps (map with_range rows)))
    as [rows' Hr].
  - unfold add_timesteps. rewrite map_map.
    apply Forall_forall. intros y Hy. apply in_map_iff in Hy.
    destruct Hy as [x [<- Hx]].
    rewrite Forall_forall in Hseg. destruct (Hseg x Hx) as [Hs [He Hlt]].
    cbn [timesteps set_timesteps date_range with_range set_date_range].
    rewrite date_range_left_length
      by (try assumption; now apply (period_lt_toordinal_neq u)).
    lia.
  - rewrite Hr. cbn [bind]. eauto.
Qed.

End PipelineFacts.

Import PipelineFacts.

(** ** Gap detection *)

(** C2.  [gap_check] raises the gap error exactly when two consecutive
    rows are more than one period of the unit apart.  On a table with at
    least one row, and at days on any table, it passes exactly when no
    difference exceeds one: it accepts every table whose rows are each
    one period after the row before, accepts repeated and decreasing
    dates, and rejects a contiguous table from which an inner row was
    removed.  On a table without rows it passes at days, but at months
    and years the difference of the empty column of periods raises
    [TypeError]: the call ends with an error although no difference
    exceeds one unit. *)
Theorem gap_check_correct (ds : dataset) (u : time_unit) :
  let diffs := diff (periods u (map fst ds)) in
  (gap_check ds u = Raised GapError <-> Exists (fun x => 1 < x)%Z diffs)
  /\ (ds <> [] \/ u = Days ->
      (gap_check ds u = Ok tt <-> Forall (fun x => x <= 1)%Z diffs)
      /\ (contiguous u ds -> gap_check ds u = Ok tt)
      /\ (Forall (fun x => x <= 0)%Z diffs -> gap_check ds u = Ok tt))
  /\ (forall l1 x l2,
        ds = l1 ++ x :: l2 -> l1 <> [] -> l2 <> [] -> contiguous u ds ->
        gap_check (l1 ++ l2) u = Raised GapError)
  /\ gap_check [] Days = Ok tt
  /\ gap_check [] Months = Raised TypeError
  /\ gap_check [] Years = Raised TypeError.
Proof.
  assert (Hp : forall l : dataset,
             map (fun r => period u (fst r)) l = periods u (map fst l)).
  { intros l. unfold periods. now rewrite map_map. }
  cbn zeta. split; [|split; [|split]].
  - split; intros H.
    + apply gap_check_raised in H. now rewrite Hp in H.
    + apply gap_check_raised. now rewrite Hp.
  - intros Hne. split; [split|split].
    + intros H. apply gap_check_ok_diffs in H. now rewrite Hp in H.
    + intros H. apply gap_check_passes; [assumption | now rewrite Hp].
    + now apply gap_check_contiguous.
    + intros H. apply gap_check_passes; [assumption|]. rewrite Hp.
      eapply Forall_impl; [|exact H]. intros z Hz. cbv beta in Hz. lia.
  - intros l1 x l2 -> H1 H2 Hc. apply gap_check_raised. rewrite Hp.
    unfold contiguous, periods in *. rewrite !map_app in *.
    cbn [map] in Hc. eapply diff_drop_inner; try eassumption.
    + intros E. apply map_eq_nil in E. apply map_eq_nil in E. contradiction.
    + intros E. apply map_eq_nil in E. apply map_eq_nil in E. contradiction.
  - repeat split.
Qed.

Lemma gap_check_correct_witness :
  gap_check scenario_A Years = Ok tt
  /\ gap_check two_year_jump Years = Raised GapError.
Proof.
  pose proof (gap_check_correct scenario_A Years) as [_ [Hc [Hdrop _]]].
  assert (Hne : scenario_A <> [] \/ Years = Days) by (left; discriminate).
  destruct (Hc Hne) as [_ [Hcont _]].
  split.
  - apply Hcont. unfold contiguous. vm_compute. repeat constructor.
  - apply (Hdrop [(mkdate 2020 1 1, 100%R)] (mkdate 2021 1 1, 150%R)
                 [(mkdate 2022 1 1, 200%R)]).
    + reflexivity.
    + discriminate.
    + discriminate.
    + unfold contiguous. vm_compute. repeat constructor.
Defined.

(** ** The flattened table *)

(** C9.  For a table of valid dates that is contiguous at the unit an
    entry point takes its input at, the table the entry point returns is
    strictly ascending by date (sorted, no date twice), passes
    [gap_check] at the unit of the output, and consists of the generated
    rows followed by the last input row, whose date is not among the
    generated ones.  With linear rates and at least two rows, [fill_gaps]
    and [monthly_to_daily] do return a table. *)
Theorem flatten_invariant (op : operation) (ds : dataset) (rt : rate_type) :
  Forall valid_date (map fst ds) ->
  contiguous (native_unit op) ds ->
  (forall out,
     run op ds rt = Ok out ->
     ascending (map fst out)
     /\ gap_check out (target_unit op) = Ok tt
     /\ exists body filled final,
          ds = body ++ [final] /\ out = filled ++ [final]
          /\ ~ In (fst final) (map fst filled))
  /\ (op <> YearlyToMonthly -> (2 <= length ds)%nat ->
      exists out, run op ds Linear = Ok out).
Proof.
  intros Hv Hc.
  pose proof (contiguous_increasing op ds Hv Hc) as Hi.
  split.
  - intros out Hrun. apply run_fill_gaps in Hrun.
    now apply (fill_gaps_invariant (target_unit op) ds rt).
  - intros Hop Hlen.
    destruct (fill_gaps_linear_ok (target_unit op) ds Hv Hi Hlen)
      as [out Hout].
    exists out. destruct op as [u | |]; cbn [run target_unit] in *.
    + assumption.
    + congruence.
    + change (monthly_to_daily ds Linear)
        with (_ <- gap_check ds Months ;; fill_gaps ds Linear Days).
      assert (Hne : ds <> [] \/ Months = Days)
        by (left; destruct ds; [simpl in Hlen; lia | discriminate]).
      now rewrite (gap_check_contiguous ds Months Hne Hc).
Qed.

Lemma flatten_invariant_witness :
  exists out,
    run (FillGaps Months) two_months Linear = Ok out
    /\ ascending (map fst out)
    /\ gap_check out Months = Ok tt.
Proof.
  assert (Hv : Forall valid_date (map fst two_months)).
  { repeat (constructor; [apply valid_dateb_spec; reflexivity|]).
    constructor. }
  assert (Hc : contiguous (native_unit (FillGaps Months)) two_months).
  { unfold contiguous. vm_compute. repeat constructor. }
  destruct (flatten_invariant (FillGaps Months) two_months Linear Hv Hc)
    as [Hinv Hret].
  destruct Hret as [out Hout].
  - discriminate.
  - simpl. lia.
  - exists out. destruct (Hinv out Hout) as [Ha [Hg _]]. auto.
Defined.

(** ** Rates *)

(** C6.  For a segment of [k >= 1] steps the linear rate carries the
    start value to the end value in [k] additions, and, when the start
    and end values are nonzero of the same sign, the exponential rate
    does so in [k] multiplications. *)
Theorem rate_round_trip (x : row) :
  (1 <= timesteps x)%nat ->
  (exists r,
     row_rate Linear x = Ok r
     /\ (start_value x + INR (timesteps x) * r = end_value x)%R)
  /\ ((0 < start_value x /\ 0 < end_value x)%R
      \/ (start_value x < 0 /\ end_value x < 0)%R ->
      exists r,
        row_rate Exponential x = Ok r
        /\ (start_value x * r ^ timesteps x = end_value x)%R).
Proof.
  intros Hk. pose proof (INR_pos_of_ge1 _ Hk) as HK. split.
  - eexists. split; [now apply row_rate_linear|]. field. lra.
  - intros Hsign.
    assert (Hv : start_value x <> 0%R) by lra.
    pose proof (same_sign_ratio _ _ Hsign) as Hb.
    eexists. split.
    + rewrite row_rate_exponential by assumption.
      now apply float_root_positive.
    + rewrite root_pow by assumption. field. assumption.
Qed.

Lemma rate_round_trip_witness :
  (exists r,
     row_rate Linear year_segment = Ok r
     /\ (start_value year_segment + INR (timesteps year_segment) * r
         = end_value year_segment)%R)
  /\ (exists r,
        row_rate Exponential year_segment = Ok r
        /\ (start_value year_segment * r ^ timesteps year_segment
            = end_value year_segment)%R).
Proof.
  assert (Hk : (1 <= timesteps year_segment)%nat) by (simpl; lia).
  destruct (rate_round_trip year_segment Hk) as [Hlin Hexp].
  split; [exact Hlin|].
  apply Hexp. left. simpl. lra.
Defined.

(** C10.  A segment whose start value is zero has no exponential rate:
    the division raises, for the row, for the table that holds it, and
    for [fill_gaps] over a table with such a segment. *)
Theorem zero_start_exponential_raises :
  (forall x, start_value x = 0%R ->
             row_rate Exponential x = Raised ZeroDivisionError)
  /\ (forall rows, Exists (fun x => start_value x = 0%R) rows ->
                   add_rate rows Exponential = Raised ZeroDivisionError)
  /\ (forall ds u, Exists (fun x => start_value x = 0%R) (add_bounds ds) ->
                   fill_gaps ds Exponential u = Raised ZeroDivisionError).
Proof.
  split; [exact row_rate_zero_start|].
  split; [exact add_rate_zero_start|].
  intros ds u H. unfold fill_gaps.
  destruct (add_bounds ds) as [|x0 segs] eqn:E.
  { apply Exists_exists in H. destruct H as [x [[] _]]. }
  cbn [add_daterange bind].
  rewrite add_rate_zero_start; [reflexivity|].
  unfold add_timesteps. rewrite map_map.
  apply Exists_exists in H. destruct H as [x [Hx Hv]].
  apply Exists_exists. exists
    (set_timesteps
       (length (date_range
                  (set_date_range
                     (date_range_left u (start_date x) (end_date x)) x)))
       (set_date_range (date_range_left u (start_date x) (end_date x)) x)).
  split; [|exact Hv].
  apply in_map_iff. exists x. split; [reflexivity | assumption].
Qed.

Lemma zero_start_exponential_raises_witness :
  row_rate Exponential zero_segment = Raised ZeroDivisionError.
Proof.
  destruct zero_start_exponential_raises as [Hrow _].
  apply Hrow. reflexivity.
Defined.

(** ** Generated values *)

(** C7.  The values generated for a segment of [k >= 1] steps are [k]
    many; the one at index [n] is the start value plus [n] times the
    rate, or times the [n]-th power of the rate; the first one is the
    start value itself.  The step count of a row is the length of its
    date range. *)
Theorem interpolated_values_spec (rt : rate_type) (x : row) :
  (1 <= timesteps x)%nat ->
  let y := set_interpolated (interpolate_row rt x) x in
  add_interpolated_values [x] rt = [y]
  /\ length (interpolated y) = timesteps x
  /\ (forall n, (n < timesteps x)%nat ->
        nth n (interpolated y) 0%R =
        match rt with
        | Linear => (start_value x + INR n * rate x)%R
        | Exponential => (start_value x * rate x ^ n)%R
        end)
  /\ nth 0 (interpolated y) 0%R = start_value x
  /\ map timesteps (add_timesteps [x]) = [length (date_range x)].
Proof.
  intros Hk. cbn zeta. cbn [interpolated set_interpolated].
  split; [reflexivity|].
  split; [apply interpolate_row_length|].
  split; [intros n Hn; now apply interpolate_row_nth|].
  split; [|reflexivity].
  rewrite interpolate_row_nth by lia.
  destruct rt; simpl; ring.
Qed.

Lemma interpolated_values_spec_witness :
  nth 0 (interpolate_row Exponential year_segment) 0%R = 100%R.
Proof.
  apply (interpolated_values_spec Exponential year_segment). simpl. lia.
Defined.

(** ** Extrapolated tables *)

Lemma map_fst_extrapolated rt u r s v ft :
  map fst (extrapolated_dataset rt u r s v ft)
  = date_range_periods u s (ft + 1).
Proof.
  unfold extrapolated_dataset. apply map_fst_combine.
  rewrite extrapolated_values_length.
  unfold date_range_periods. destruct u; now rewrite length_map, length_seq.
Qed.

Lemma map_snd_extrapolated rt u r s v ft :
  map snd (extrapolated_dataset rt u r s v ft)
  = extrapolated_values rt r v ft.
Proof.
  unfold extrapolated_dataset.
  assert (Hlen : length (date_range_periods u s (ft + 1))
                 = length (extrapolated_values rt r v ft)).
  { rewrite extrapolated_values_length.
    unfold date_range_periods. destruct u; now rewrite length_map, length_seq. }
  revert Hlen. generalize (extrapolated_values rt r v ft).
  generalize (date_range_periods u s (ft + 1)).
  induction l as [|a l IH]; intros [|b l'] H; simpl in *;
    try reflexivity; try discriminate.
  f_equal. apply IH. lia.
Qed.

(** The claim C8 puts the first date of the forward range at the anchor
    date; with months the range starts at the end of the month of the
    anchor. *)
Lemma extrapolated_first_date_counterexample :
  map fst (extrapolated_dataset Linear Months 10 (mkdate 2020 1 1) 100 1)
  = [mkdate 2020 1 31; mkdate 2020 2 29]
  /\ hd_error
       (map fst (extrapolated_dataset Linear Months 10 (mkdate 2020 1 1) 100 1))
     <> Some (mkdate 2020 1 1).
Proof.
  rewrite map_fst_extrapolated. split.
  - reflexivity.
  - vm_compute. discriminate.
Qed.

Lemma date_range_periods_form u s n :
  date_range_periods u s n = map (nth_period_end u s) (seq 0 n).
Proof. destruct u; reflexivity. Qed.

(** A valid date is the first date of its frequency that is not before
    it exactly when it is on the frequency. *)
Lemma period_end_on_frequency u s :
  valid_date s -> (period_end u s = s <-> on_frequency u s).
Proof.
  intros [Hm Hd]. destruct u; cbn [period_end on_frequency].
  - tauto.
  - unfold month_end. destruct (month_period_div s Hm) as [-> ->].
    destruct s as [y m dd]; cbn [year month day] in *. split.
    + intros H. injection H as H. lia.
    + intros ->. reflexivity.
  - unfold year_end. destruct s as [y m dd]; cbn [year month day] in *. split.
    + intros H. injection H as H1 H2. lia.
    + intros [-> ->]. reflexivity.
Qed.

Lemma toordinal_le_period_end u s :
  valid_date s -> (toordinal s <= toordinal (period_end u s))%Z.
Proof.
  intros Hs. destruct u; cbn [period_end].
  - lia.
  - now apply toordinal_le_month_end.
  - now apply toordinal_le_year_end.
Qed.

(** The dates of the frequency counted from a valid date: valid, on the
    frequency, in consecutive periods and strictly ascending. *)
Lemma nth_period_ends u s n :
  valid_date s ->
  Forall valid_date (map (nth_period_end u s) (seq 0 n))
  /\ Forall (on_frequency u) (map (nth_period_end u s) (seq 0 n))
  /\ periods u (map (nth_period_end u s) (seq 0 n))
     = consecutive (period u s) n
  /\ ascending (map (nth_period_end u s) (seq 0 n)).
Proof.
  intros Hs.
  assert (Hv : Forall valid_date (map (nth_period_end u s) (seq 0 n))).
  { apply Forall_forall. intros d Hd. apply in_map_iff in Hd.
    destruct Hd as [i [<- _]]. now apply nth_period_end_spec. }
  assert (Hp : periods u (map (nth_period_end u s) (seq 0 n))
               = consecutive (period u s) n).
  { unfold periods, consecutive. rewrite map_map. apply map_ext.
    intros i. now apply nth_period_end_spec. }
  split; [exact Hv|]. split; [|split; [exact Hp|]].
  - apply Forall_forall. intros d Hd. apply in_map_iff in Hd.
    destruct Hd as [i [<- _]]. now apply nth_period_end_spec.
  - eapply consecutive_ascending; eassumption.
Qed.

(** C8, amended.  The extrapolated table has [future_timesteps + 1]
    rows; the value at index [n] is the anchor value plus [n] times the
    rate, or times the [n]-th power of the rate, and the first value is
    the anchor value itself.  The dates are the [future_timesteps + 1]
    dates of the frequency counted from the anchor date: consecutive
    days from the anchor date for days, and for months and years the
    consecutive month ends and year ends from the end of the month or
    year of the anchor date.  They are existing dates on the frequency,
    in consecutive periods from the period of the anchor date and
    strictly ascending; the first one is not before the anchor date, and
    it is the anchor date exactly when the anchor date is on the
    frequency. *)
Theorem extrapolated_dataset_spec (rt : rate_type) (u : time_unit)
    (r : R) (s : date) (v : R) (ft : nat) :
  valid_date s ->
  let out := extrapolated_dataset rt u r s v ft in
  length out = (ft + 1)%nat
  /\ (forall n, (n <= ft)%nat ->
        nth n (map snd out) 0%R =
        match rt with
        | Linear => (v + r * INR n)%R
        | Exponential => (v * r ^ n)%R
        end)
  /\ nth 0 (map snd out) 0%R = v
  /\ map fst out = map (nth_period_end u s) (seq 0 (ft + 1))
  /\ Forall valid_date (map fst out)
  /\ Forall (on_frequency u) (map fst out)
  /\ periods u (map fst out) = consecutive (period u s) (ft + 1)
  /\ ascending (map fst out)
  /\ hd_error (map fst out) = Some (period_end u s)
  /\ period_end Days s = s
  /\ (toordinal s <= toordinal (period_end u s))%Z
  /\ (period_end u s = s <-> on_frequency u s).
Proof.
  intros Hs. cbn zeta.
  rewrite map_fst_extrapolated, map_snd_extrapolated, date_range_periods_form.
  destruct (nth_period_ends u s (ft + 1) Hs) as [Hv [Hf [Hp Ha]]].
  split.
  { rewrite <- (length_map fst), map_fst_extrapolated, date_range_periods_form.
    now rewrite length_map, length_seq. }
  split; [intros n Hn; now apply extrapolated_values_nth|].
  split.
  { rewrite extrapolated_values_nth by lia. destruct rt; simpl; ring. }
  split; [reflexivity|].
  split; [exact Hv|]. split; [exact Hf|]. split; [exact Hp|].
  split; [exact Ha|].
  split.
  { unfold period_end. rewrite Nat.add_1_r.
    destruct u; cbn [seq map hd_error nth_period_end];
      try rewrite Z.add_0_r; reflexivity. }
  split; [reflexivity|].
  split; [now apply toordinal_le_period_end|].
  now apply period_end_on_frequency.
Qed.

Lemma extrapolated_dataset_spec_witness :
  nth 0 (map snd (extrapolated_dataset Exponential Years 2 trend_anchor 100 3))
      0%R = 100%R
  /\ hd_error
       (map fst (extrapolated_dataset Exponential Years 2 trend_anchor 100 3))
     = Some (mkdate 2020 12 31).
Proof.
  assert (Hs : valid_date trend_anchor) by (apply valid_dateb_spec; reflexivity).
  destruct (extrapolated_dataset_spec Exponential Years 2 trend_anchor 100 3 Hs)
    as [_ [_ [H0 [_ [_ [_ [_ [_ [Hd _]]]]]]]]].
  split; [exact H0 | exact Hd].
Defined.

(** ** Date ranges of segments *)

(** The claim C3 puts the first date of a range at the start date of the
    segment; with months the range from January 1st to March 1st holds
    the ends of January and February. *)
Lemma date_range_first_date_counterexample :
  (exists x,
     add_daterange [winter_segment] Months = Ok [x]
     /\ date_range x = [mkdate 2020 1 31; mkdate 2020 2 29])
  /\ hd_error (date_range_left Months (start_date winter_segment)
                 (end_date winter_segment))
     <> Some (start_date winter_segment).
Proof.
  split.
  - eexists. split; reflexivity.
  - vm_compute. discriminate.
Qed.

(** A segment that starts and ends at the same date keeps that date
    when it is on the frequency, and has no date otherwise. *)
Lemma date_range_left_same u s :
  valid_date s ->
  date_range_left u s s = if date_eqb (period_end u s) s then [s] else [].
Proof.
  intros Hs. rewrite date_range_left_kept by reflexivity.
  assert (Hcase : forall c,
            valid_date c -> (toordinal s <= toordinal c)%Z ->
            filter (fun c => date_leb s c && date_leb c s) [c]
            = if date_eqb c s then [s] else []).
  { intros c Hc Hle. cbn [filter]. unfold date_leb, date_eqb.
    destruct (Z.leb_spec (toordinal s) (toordinal c)); [|lia].
    destruct (Z.leb_spec (toordinal c) (toordinal s));
      destruct (Z.eqb_spec (toordinal c) (toordinal s));
      cbn [andb]; try lia; try reflexivity.
    f_equal. now apply toordinal_inj. }
  destruct u; unfold date_range_both; cbn [period_end];
    rewrite Z.sub_diag.
  - cbn. unfold date_eqb. now rewrite Z.eqb_refl.
  - cbn [Z.to_nat Nat.add seq map]. rewrite Z.add_0_r.
    apply Hcase; [apply valid_month_end | now apply toordinal_le_month_end].
  - cbn [Z.to_nat Nat.add seq map]. rewrite Z.add_0_r.
    apply Hcase; [apply valid_year_end | now apply toordinal_le_year_end].
Qed.

(** C3, amended.  Between valid dates, the range of a segment holds
    existing dates on the frequency of the unit, and the step count of
    the row is its length.  When the start date differs from the end
    date, the range is the dates of the frequency counted from the start
    date, one per period from the period of the start date up to the one
    before the period of the end date: consecutive days from the start
    date for days, and for months and years the consecutive month ends
    and year ends from the end of the month or year of the start date.
    It is strictly ascending, lies from the start date on and before the
    end date, and its first date is the start date exactly when the
    start date is on the frequency.  When the start date is the end
    date, the range is that date alone if it is on the frequency, and
    empty otherwise. *)
Theorem date_range_left_spec (u : time_unit) (x : row) :
  valid_date (start_date x) -> valid_date (end_date x) ->
  let s := start_date x in
  let e := end_date x in
  let range := date_range_left u s e in
  (exists y, add_daterange [x] u = Ok [y] /\ date_range y = range
             /\ map timesteps (add_timesteps [y]) = [length range])
  /\ Forall valid_date range
  /\ Forall (on_frequency u) range
  /\ (toordinal s <> toordinal e ->
      range = map (nth_period_end u s)
                  (seq 0 (Z.to_nat (period u e - period u s)))
      /\ ascending range
      /\ Forall (fun d => toordinal s <= toordinal d < toordinal e)%Z range
      /\ periods u range
         = consecutive (period u s) (Z.to_nat (period u e - period u s))
      /\ Forall (fun z => z = 1%Z) (diff (periods u range))
      /\ length range = Z.to_nat (period u e - period u s)
      /\ ((period u s < period u e)%Z ->
          hd_error range = Some (period_end u s)))
  /\ (toordinal s = toordinal e ->
      range = if date_eqb (period_end u s) s then [s] else [])
  /\ period_end Days s = s
  /\ (period_end u s = s <-> on_frequency u s).
Proof.
  intros Hs He. cbn zeta.
  set (n := Z.to_nat (period u (end_date x) - period u (start_date x))).
  destruct (nth_period_ends u (start_date x) n Hs) as [Hv [Hf [Hp Ha]]].
  assert (Hsame : toordinal (start_date x) = toordinal (end_date x) ->
            date_range_left u (start_date x) (end_date x)
            = if date_eqb (period_end u (start_date x)) (start_date x)
              then [start_date x] else []).
  { intros Heq. rewrite <- (toordinal_inj _ _ Hs He Heq).
    now apply date_range_left_same. }
  split; [eexists; repeat split|].
  assert (Hcases : toordinal (start_date x) <> toordinal (end_date x)
                   \/ toordinal (start_date x) = toordinal (end_date x)) by lia.
  split; [|split].
  { destruct Hcases as [Hne | Heq].
    - now rewrite date_range_left_form.
    - rewrite (Hsame Heq).
      destruct (date_eqb _ _); [constructor; [exact Hs | constructor]
                               | constructor]. }
  { destruct Hcases as [Hne | Heq].
    - now rewrite date_range_left_form.
    - rewrite (Hsame Heq). unfold date_eqb.
      destruct (Z.eqb_spec (toordinal (period_end u (start_date x)))
                  (toordinal (start_date x))) as [E | E];
        [constructor; [|constructor] | constructor].
      apply period_end_on_frequency; [assumption|].
      apply toordinal_inj; try assumption.
      destruct u; cbn [period_end];
        [assumption | apply valid_month_end | apply valid_year_end]. }
  split.
  { intros Hne. rewrite date_range_left_form by assumption. fold n.
    split; [reflexivity|]. split; [exact Ha|]. split.
    { apply Forall_forall. intros d Hd. apply in_map_iff in Hd.
      destruct Hd as [i [<- Hi]]. apply in_seq in Hi.
      destruct (nth_period_end_spec u (start_date x) i Hs) as [Hvi [Hpi _]].
      split.
      - destruct i as [|i].
        + replace (nth_period_end u (start_date x) 0)
            with (period_end u (start_date x)).
          * now apply toordinal_le_period_end.
          * destruct u; cbn [period_end nth_period_end];
              rewrite ?Z.add_0_r; reflexivity.
        + apply Z.lt_le_incl, (period_lt_toordinal u); try assumption. lia.
      - apply (period_lt_toordinal u); try assumption. unfold n in Hi. lia. }
    split; [exact Hp|].
    split; [rewrite Hp; apply diff_consecutive|].
    split; [now rewrite length_map, length_seq|].
    intros Hlt.
    assert (Hn : exists k, n = S k)
      by (exists (Nat.pred n); unfold n in *; lia).
    destruct Hn as [k ->]. cbn [seq map hd_error]. f_equal.
    destruct u; cbn [period_end nth_period_end]; rewrite ?Z.add_0_r;
      reflexivity. }
  split; [exact Hsame|].
  split; [reflexivity|].
  now apply period_end_on_frequency.
Qed.

Lemma date_range_left_spec_witness :
  hd_error (date_range_left Months (start_date winter_segment)
              (end_date winter_segment))
  = Some (mkdate 2020 1 31).
Proof.
  assert (Hs : valid_date (start_date winter_segment))
    by (apply valid_dateb_spec; reflexivity).
  assert (He : valid_date (end_date winter_segment))
    by (apply valid_dateb_spec; reflexivity).
  destruct (date_range_left_spec Months winter_segment Hs He)
    as [_ [_ [_ [Hne _]]]].
  destruct Hne as [_ [_ [_ [_ [_ [_ Hhd]]]]]].
  - vm_compute. discriminate.
  - apply Hhd. vm_compute. reflexivity.
Defined.

(** ** Entry points *)

Lemma collect_raised_in {A} (l : list (outcome A)) e :
  collect l = Raised e -> In (Raised e) l.
Proof.
  induction l as [|o l IH]; simpl; [discriminate|].
  destruct o as [a | e' |].
  - destruct (collect l); try discriminate.
    intros H. right. now apply IH.
  - intros H. left. injection H as ->. reflexivity.
  - destruct (collect l); try discriminate.
    intros H. right. now apply IH.
Qed.

Lemma add_rate_raises rows rt e :
  add_rate rows rt = Raised e -> e = ZeroDivisionError.
Proof.
  unfold add_rate. intros H. apply collect_raised_in in H.
  apply in_map_iff in H. destruct H as [x [Hx _]].
  destruct (row_rate rt x) as [r | e' |] eqn:E; simpl in Hx; try discriminate.
  injection Hx as ->. now apply row_rate_raises in E.
Qed.

(** A yearly table of three or more rows never passes the monthly gap
    check that [yearly_to_monthly] starts with. *)
Lemma yearly_to_monthly_raises (ds : dataset) rt :
  Forall valid_date (map fst ds) ->
  contiguous Years ds ->
  (3 <= length ds)%nat ->
  yearly_to_monthly ds rt = Raised GapError.
Proof.
  intros Hv Hc Hlen.
  destruct ds as [|[a va] [|[b vb] [|[c vc] t]]]; simpl in Hlen; try lia.
  assert (Hgap : gap_check ((a, va) :: (b, vb) :: (c, vc) :: t) Months
                 = Raised GapError).
  { apply gap_check_raised. cbn [map fst period diff].
    unfold contiguous in Hc. cbn [map fst periods period diff] in Hc.
    inversion Hc as [|? ? Hab Hc']; subst.
    inversion Hc' as [|? ? Hbc _]; subst.
    inversion Hv as [|? ? [Ha _] Hv']; subst.
    inversion Hv' as [|? ? [Hb _] Hv'']; subst.
    inversion Hv'' as [|? ? [Hcm _] _]; subst.
    unfold year_period, month_period in *.
    destruct (Z_lt_le_dec 1 (year b * 12 + (month b - 1)
                             - (year a * 12 + (month a - 1)))) as [H1 | H1].
    - now constructor.
    - apply Exists_cons_tl. constructor. lia. }
  unfold yearly_to_monthly. now rewrite Hgap.
Qed.

(** C1.  On the three yearly observations of scenario A
    [yearly_to_monthly] raises the gap error: it checks the table at the
    monthly unit, where consecutive years are twelve periods apart.  The
    table is contiguous at the yearly unit, and the steps after the
    check give the values of the scenario: 100 for January 2020,
    100 + 50/12 for February 2020, and (2022, 200) as the last row. *)
Theorem yearly_to_monthly_scenario_A :
  yearly_to_monthly scenario_A Linear = Raised GapError
  /\ gap_check scenario_A Years = Ok tt
  /\ exists out,
       fill_gaps scenario_A Linear Months = Ok out
       /\ length out = 25%nat
       /\ nth 0 out (mkdate 0 0 0, 0%R) = (mkdate 2020 1 31, 100%R)
       /\ nth 1 out (mkdate 0 0 0, 0%R)
          = (mkdate 2020 2 29, (100 + 50 / 12)%R)
       /\ last out (mkdate 0 0 0, 0%R) = (mkdate 2022 1 1, 200%R).
Proof.
  split; [reflexivity|].
  split; [reflexivity|].
  eexists. split.
  - unfold scenario_A.
    cbv -[Rplus Rminus Rmult Rdiv Rinv INR IZR Ropp]. reflexivity.
  - split; [reflexivity|].
    cbn [nth last].
    split; [f_equal; simpl; lra|].
    split; [f_equal; simpl; lra|].
    reflexivity.
Qed.

(** The claim C4 expects the gap error from [fill_gaps] on a table with
    a two-year jump; the call returns a table. *)
Lemma fill_gaps_two_year_jump_counterexample :
  fill_gaps two_year_jump Linear Years
  = Ok [(mkdate 2020 12 31, 100%R); (mkdate 2021 12 31, 150%R);
        (mkdate 2022 1 1, 200%R)]
  /\ fill_gaps two_year_jump Linear Years <> Raised GapError.
Proof.
  assert (H : fill_gaps two_year_jump Linear Years
              = Ok [(mkdate 2020 12 31, 100%R); (mkdate 2021 12 31, 150%R);
                    (mkdate 2022 1 1, 200%R)]).
  { unfold two_year_jump.
    cbv -[Rplus Rminus Rmult Rdiv Rinv INR IZR Ropp].
    do 2 f_equal; [f_equal; simpl; lra|].
    f_equal. f_equal. simpl. lra. }
  split; [exact H|]. rewrite H. discriminate.
Qed.

(** C4, amended.  [fill_gaps] does not check for gaps and never raises
    the gap error.  For two observations with valid dates two years
    apart, at the yearly unit with linear rates, it returns the start
    value at the end of the first year, the midpoint at the end of the
    missing year, and the last observation. *)
Theorem fill_gaps_no_gap_check :
  (forall ds rt u, fill_gaps ds rt u <> Raised GapError)
  /\ (forall s e a b,
        valid_date s -> valid_date e -> year e = (year s + 2)%Z ->
        fill_gaps [(s, a); (e, b)] Linear Years
        = Ok [(year_end (year s), a);
              (year_end (year s + 1), (a + (b - a) / 2)%R);
              (e, b)]).
Proof.
  split.
  - intros ds rt u H. unfold fill_gaps in H.
    destruct (add_bounds ds) as [|x0 segs]; [discriminate|].
    cbn [add_daterange bind] in H.
    destruct (add_rate _ rt) as [rows | e |] eqn:E; cbn [bind] in H;
      try discriminate.
    apply add_rate_raises in E. congruence.
  - intros s e a b Hs He Hy.
    assert (Hlast : last_row [(s, a); (e, b)] = [(e, b)]).
    { apply (last_row_ascending [(s, a)] (e, b)).
      apply (increasing_ascending Years).
      - constructor; [exact Hs | constructor; [exact He | constructor]].
      - unfold increasing. cbn [map fst periods period diff].
        constructor; [cbn [fst period]; unfold year_period; lia | constructor]. }
    unfold fill_gaps. rewrite Hlast.
    cbn [add_bounds add_daterange map bind start_date end_date].
    assert (Hne : toordinal s <> toordinal e).
    { pose proof (year_lt_toordinal s e Hs He). lia. }
    rewrite date_range_left_years by assumption.
    replace (Z.to_nat (year e - year s)) with 2%nat by lia.
    cbn [seq map]. rewrite Z.add_0_r. change (Z.of_nat 1) with 1%Z.
    cbv -[Rplus Rminus Rmult Rdiv Rinv INR IZR Ropp year_end year Z.add].
    do 2 f_equal; [f_equal; simpl; lra|].
    f_equal. f_equal. simpl. lra.
Qed.

Lemma fill_gaps_no_gap_check_witness :
  fill_gaps [(mkdate 2020 6 15, 1%R); (mkdate 2022 3 1, 5%R)] Linear Years
  = Ok [(year_end 2020, 1%R); (year_end (2020 + 1), (1 + (5 - 1) / 2)%R);
        (mkdate 2022 3 1, 5%R)].
Proof.
  destruct fill_gaps_no_gap_check as [_ H].
  apply (H (mkdate 2020 6 15) (mkdate 2022 3 1) 1%R 5%R).
  - apply valid_dateb_spec. reflexivity.
  - apply valid_dateb_spec. reflexivity.
  - reflexivity.
Defined.

(** ** Extrapolation *)

Lemma valid_add_months d n : valid_date d -> valid_date (add_months d n).
Proof.
  intros [Hm Hd]. unfold valid_date, add_months; cbn [year month day].
  set (p := (month_period d + n)%Z).
  pose proof (days_in_month_bounds (p / 12) (p mod 12 + 1)).
  assert (0 <= p mod 12 < 12)%Z by (apply Z.mod_pos_bound; lia).
  lia.
Qed.

Lemma month_period_add_months d n :
  month_period (add_months d n) = (month_period d + n)%Z.
Proof.
  unfold add_months. set (p := (month_period d + n)%Z).
  unfold month_period; cbn [year month]. Z.div_mod_to_equations. lia.
Qed.

Lemma valid_add_years d n : valid_date d -> valid_date (add_years d n).
Proof.
  intros [Hm Hd]. unfold valid_date, add_years; cbn [year month day].
  pose proof (days_in_month_bounds (year d + n) (month d)). lia.
Qed.

(** Adding a positive number of steps gives a later date. *)
Lemma date_delta_after u d k :
  valid_date d -> (0 < k)%Z ->
  (toordinal d < toordinal (date_delta u d k))%Z.
Proof.
  intros Hd Hk. destruct u; cbn [date_delta].
  - rewrite <- (Z2Nat.id k) by lia.
    rewrite toordinal_add_days by assumption. lia.
  - apply month_period_lt_toordinal;
      [assumption | now apply valid_add_months |].
    rewrite month_period_add_months. lia.
  - apply year_lt_toordinal; [assumption | now apply valid_add_years |].
    unfold add_years; cbn [year]. lia.
Qed.

Lemma filter_none {A} (f : A -> bool) l :
  (forall x, f x = false) -> filter f l = [].
Proof.
  intros H. induction l as [|a l IH]; simpl; [reflexivity|].
  now rewrite H.
Qed.

(** With a positive [past_timesteps] the window starts after the anchor
    date and holds no row. *)
Lemma positive_past_window_empty (ds : dataset) u anchor k :
  valid_date anchor -> (0 < k)%Z ->
  filter_data ds (date_delta u anchor k) anchor true = [].
Proof.
  intros Ha Hk. pose proof (date_delta_after u anchor k Ha Hk) as Hlt.
  unfold filter_data. apply filter_none. intros r.
  unfold date_leb. apply andb_false_iff.
  destruct (Z.leb_spec (toordinal (date_delta u anchor k)) (toordinal (fst r)));
    [right | now left].
  apply Z.leb_gt. lia.
Qed.

(** With a positive [past_timesteps], the empty window gives no table of
    real values.  The one way out is exponential rates at days with
    [future_timesteps = 0], where the NaN rate is raised to the power
    0. *)
Lemma positive_past_no_table (ds : dataset) rt u anchor ft k :
  valid_date anchor -> (0 < k)%Z ->
  rt = Linear \/ (1 <= ft)%nat \/ u <> Days ->
  forall out, extrapolate ds rt u anchor ft k <> Ok out.
Proof.
  intros Ha Hk Hcase out. unfold extrapolate.
  rewrite positive_past_window_empty by assumption.
  destruct (filter _ ds); cbn [bind]; [discriminate|].
  destruct u; cbn; try discriminate.
  destruct rt; [discriminate|].
  destruct ft; [|discriminate].
  destruct Hcase as [H | [H | H]]; [discriminate | lia | congruence].
Qed.

(** At months and years the empty window stops the call in the gap
    check. *)
Lemma positive_past_type_error (ds : dataset) rt u anchor ft k :
  valid_date anchor -> (0 < k)%Z -> u <> Days ->
  (exists r, In r ds /\ toordinal (fst r) = toordinal anchor) ->
  extrapolate ds rt u anchor ft k = Raised TypeError.
Proof.
  intros Ha Hk Hu [r [Hr Heq]]. unfold extrapolate.
  rewrite positive_past_window_empty by assumption.
  destruct (filter (fun r => date_eqb (fst r) anchor) ds) as [|a l] eqn:E.
  - assert (Hin : In r (filter (fun r => date_eqb (fst r) anchor) ds)).
    { apply filter_In. split; [assumption|].
      unfold date_eqb. now apply Z.eqb_eq. }
    rewrite E in Hin. destruct Hin.
  - cbn [bind]. now rewrite (gap_check_empty u Hu).
Qed.

(** C5.  In scenario C the series grows by 10 a year, the anchor is its
    last date, and three steps are asked for from the two past steps.
    [extrapolate] adds [past_timesteps] to the anchor date, so the window
    runs from 2022 back to 2020 and holds no row: the gap check at years
    raises [TypeError] on the empty window and no table of four points
    comes out.  With [-2] for [past_timesteps] the window is the last
    three rows, the mean rate is 10 and the four values are [v0],
    [v0 + 10], [v0 + 20], [v0 + 30]. *)
Theorem extrapolate_scenario_C (v0 : R) :
  filter_data (trend v0) (date_delta Years trend_anchor 2) trend_anchor true
  = []
  /\ extrapolate (trend v0) Linear Years trend_anchor 3 2 = Raised TypeError
  /\ extrapolate (trend v0) Linear Years trend_anchor 3 (-2)
     = Ok [(mkdate 2020 12 31, v0); (mkdate 2021 12 31, (v0 + 10)%R);
           (mkdate 2022 12 31, (v0 + 20)%R); (mkdate 2023 12 31, (v0 + 30)%R)].
Proof.
  split; [reflexivity|].
  split; [reflexivity|].
  unfold trend, trend_anchor.
  cbv -[Rplus Rminus Rmult Rdiv Rinv INR IZR Ropp].
  do 2 f_equal; [f_equal; simpl; lra|].
  f_equal; [f_equal; simpl; lra|].
  f_equal; [f_equal; simpl; lra|].
  f_equal. f_equal. simpl. lra.
Qed.

(** ** Further properties of the library *)

Module SegmentFacts.

Local Open Scope Z_scope.

Lemma add_bounds_cons2 d v d' v' (t : dataset) :
  add_bounds ((d, v) :: (d', v') :: t)
  = mkrow d v d' v' [] 0 0%R [] :: add_bounds ((d', v') :: t).
Proof. reflexivity. Qed.

Lemma add_bounds_starts (ds : dataset) :
  map (fun x => (start_date x, start_value x)) (add_bounds ds) = removelast ds.
Proof.
  induction ds as [|[d v] ds IH]; [reflexivity|].
  destruct ds as [|[d' v'] t]; [reflexivity|].
  rewrite add_bounds_cons2. cbn [map start_date start_value].
  rewrite IH. reflexivity.
Qed.

Lemma add_bounds_ends (ds : dataset) :
  map (fun x => (end_date x, end_value x)) (add_bounds ds) = tl ds.
Proof.
  induction ds as [|[d v] ds IH]; [reflexivity|].
  destruct ds as [|[d' v'] t]; [reflexivity|].
  rewrite add_bounds_cons2. cbn [map end_date end_value tl].
  f_equal. exact IH.
Qed.

Lemma add_bounds_length (ds : dataset) :
  length (add_bounds ds) = (length ds - 1)%nat.
Proof.
  rewrite <- (length_map (fun x => (start_date x, start_value x))).
  rewrite add_bounds_starts.
  destruct ds as [|r ds]; [reflexivity|].
  rewrite removelast_firstn_len, length_firstn. simpl. lia.
Qed.

Lemma add_bounds_valid (ds : dataset) :
  Forall valid_date (map fst ds) ->
  Forall (fun x => valid_date (start_date x) /\ valid_date (end_date x))
         (add_bounds ds).
Proof.
  induction ds as [|[d v] ds IH]; intros Hv; [constructor|].
  destruct ds as [|[d' v'] t]; [constructor|].
  inversion Hv as [|? ? Hd Ht]; subst.
  rewrite add_bounds_cons2. constructor.
  - cbn [start_date end_date]. split; [assumption | now inversion Ht].
  - now apply IH.
Qed.

(** *** Windows of a sorted table *)

Lemma window_split (l : list (date * R)) (lo hi : date * R -> bool) :
  ascending (map fst l) ->
  (forall r r', lo r = true -> toordinal (fst r) <= toordinal (fst r') ->
                lo r' = true) ->
  (forall r r', hi r' = true -> toordinal (fst r) <= toordinal (fst r') ->
                hi r = true) ->
  exists l1 l2,
    l = l1 ++ filter (fun r => lo r && hi r) l ++ l2
    /\ Forall (fun r => lo r = false) l1
    /\ Forall (fun r => hi r = false) l2.
Proof.
  intros Hasc Hlo Hhi. induction l as [|a l IH].
  - exists [], []. repeat split; constructor.
  - cbn [map] in Hasc. apply StronglySorted_inv in Hasc.
    destruct Hasc as [Hs Hall].
    destruct (IH Hs) as [l1 [l2 [Hl [H1 H2]]]].
    assert (Hafter : forall r, In r l -> toordinal (fst a) <= toordinal (fst r)).
    { intros r Hr. rewrite Forall_forall in Hall.
      apply Z.lt_le_incl, Hall. now apply in_map. }
    cbn [filter]. destruct (lo a) eqn:Ea; cbn [andb].
    + destruct (hi a) eqn:Eb.
      * assert (l1 = []) as ->.
        { destruct l1 as [|b l1]; [reflexivity|].
          inversion H1 as [|? ? Hb _]; subst.
          rewrite (Hlo a b Ea) in Hb; [discriminate|].
          apply Hafter. rewrite Hl. now left. }
        exists [], l2. repeat split; try assumption.
        cbn [app] in *. now rewrite <- Hl.
      * assert (Hnone : Forall (fun r => hi r = false) l).
        { apply Forall_forall. intros r Hr.
          destruct (hi r) eqn:Er; [|reflexivity].
          rewrite (Hhi a r Er (Hafter r Hr)) in Eb. discriminate. }
        assert (Hf : filter (fun r => lo r && hi r) l = []).
        { clear -Hnone. induction l as [|b l IH]; [reflexivity|].
          inversion Hnone as [|? ? Hb Hl]; subst.
          cbn [filter]. rewrite Hb, andb_false_r. now apply IH. }
        rewrite Hf. exists [], (a :: l).
        repeat split; [constructor | now constructor].
    + exists (a :: l1), l2. repeat split; try assumption.
      * cbn [app]. now rewrite <- Hl.
      * now constructor.
Qed.

Lemma filter_data_window (ds : dataset) s e incl :
  ascending (map fst ds) ->
  exists l1 l2, ds = l1 ++ filter_data ds s e incl ++ l2.
Proof.
  intros Hasc. unfold filter_data. destruct incl.
  - destruct (window_split ds (fun r => date_leb s (fst r))
                (fun r => date_leb (fst r) e) Hasc) as [l1 [l2 [H _]]].
    + unfold date_leb. intros r r' H1 H2.
      apply Z.leb_le in H1. apply Z.leb_le. lia.
    + unfold date_leb. intros r r' H1 H2.
      apply Z.leb_le in H1. apply Z.leb_le. lia.
    + now exists l1, l2.
  - destruct (window_split ds (fun r => date_ltb s (fst r))
                (fun r => date_ltb (fst r) e) Hasc) as [l1 [l2 [H _]]].
    + unfold date_ltb. intros r r' H1 H2.
      apply Z.ltb_lt in H1. apply Z.ltb_lt. lia.
    + unfold date_ltb. intros r r' H1 H2.
      apply Z.ltb_lt in H1. apply Z.ltb_lt. lia.
    + now exists l1, l2.
Qed.

Lemma Forall_diff_app (P : Z -> Prop) l1 l2 :
  Forall P (diff (l1 ++ l2)) -> Forall P (diff l1) /\ Forall P (diff l2).
Proof.
  induction l1 as [|a l1 IH]; intros H.
  - split; [constructor | exact H].
  - destruct l1 as [|b l1].
    + split; [constructor|].
      destruct l2 as [|c l2]; [constructor|].
      cbn in H. now inversion H.
    + change (Forall P (b - a :: diff ((b :: l1) ++ l2))) in H.
      inversion H as [|? ? Hab Hrest]; subst.
      destruct (IH Hrest) as [H1 H2].
      split; [|exact H2].
      change (Forall P (b - a :: diff (b :: l1))). now constructor.
Qed.

Lemma Forall_diff_window (P : Z -> Prop) (f : date * R -> Z) l1 w l2 :
  Forall P (diff (map f (l1 ++ w ++ l2))) -> Forall P (diff (map f w)).
Proof.
  rewrite !map_app. intros H.
  apply Forall_diff_app in H. destruct H as [_ H].
  now apply Forall_diff_app in H.
Qed.

(** *** Units *)

Lemma diff_pairwise (P Q : Z -> Prop) (f g : date -> Z) l :
  (forall a b, valid_date a -> valid_date b ->
               P (f b - f a) -> Q (g b - g a)) ->
  Forall valid_date l ->
  Forall P (diff (map f l)) -> Forall Q (diff (map g l)).
Proof.
  intros Hstep. induction l as [|a l IH]; intros Hv Hp; [constructor|].
  destruct l as [|b l]; [constructor|].
  inversion Hv as [|? ? Ha Hl]; subst.
  cbn [map diff] in *.
  inversion Hp as [|? ? Hab Hrest]; subst.
  constructor.
  - apply Hstep; try assumption. now inversion Hl.
  - now apply IH.
Qed.

(** Dates two or more months apart are more than a day apart. *)
Lemma day_step_month_step a b :
  valid_date a -> valid_date b ->
  toordinal b - toordinal a <= 1 -> month_period b - month_period a <= 1.
Proof.
  intros [Hma Hda] [Hmb Hdb] Hd.
  destruct (Z_le_gt_dec (month_period b - month_period a) 1) as [|Hgt];
    [assumption | exfalso].
  rewrite (toordinal_month_base a), (toordinal_month_base b) in Hd
    by assumption.
  destruct (month_period_div a Hma) as [Hy Hm].
  pose proof (month_base_succ (month_period a)) as H1.
  rewrite Hy, Hm in H1.
  assert (Hlt : month_period a + 1 < month_period b) by lia.
  pose proof (month_base_lt _ _ Hlt) as H2.
  pose proof (days_in_month_bounds ((month_period a + 1) / 12)
                ((month_period a + 1) mod 12 + 1)).
  lia.
Qed.

Lemma month_step_year_step a b :
  valid_date a -> valid_date b ->
  month_period b - month_period a <= 1 -> year_period b - year_period a <= 1.
Proof. unfold valid_date, month_period, year_period. lia. Qed.

End SegmentFacts.

Import SegmentFacts.

(** X1.  On a table sorted by date, the rows [filter_data] keeps are
    consecutive rows of the table, so the window is contiguous whenever
    the table is, and a window that holds at least one row (at days, any
    window) passes [gap_check] whenever the table does. *)
Theorem filter_data_keeps_contiguity (ds : dataset) (s e : date)
    (incl : bool) (u : time_unit) :
  ascending (map fst ds) ->
  (exists l1 l2, ds = l1 ++ filter_data ds s e incl ++ l2)
  /\ (filter_data ds s e incl <> [] \/ u = Days ->
      gap_check ds u = Ok tt ->
      gap_check (filter_data ds s e incl) u = Ok tt)
  /\ (contiguous u ds -> contiguous u (filter_data ds s e incl)).
Proof.
  intros Hasc.
  destruct (filter_data_window ds s e incl Hasc) as [l1 [l2 Hw]].
  split; [now exists l1, l2|]. split.
  - intros Hne H. apply gap_check_ok_diffs in H.
    apply gap_check_passes; [assumption|].
    rewrite Hw in H. now apply Forall_diff_window in H.
  - unfold contiguous, periods. rewrite !map_map. intros H.
    rewrite Hw in H. now apply Forall_diff_window in H.
Qed.

Lemma filter_data_keeps_contiguity_witness :
  gap_check (filter_data scenario_A (mkdate 2020 6 1) (mkdate 2022 6 1) true)
            Years = Ok tt.
Proof.
  assert (Hasc : ascending (map fst scenario_A)).
  { unfold ascending. repeat constructor; vm_compute; reflexivity. }
  destruct (filter_data_keeps_contiguity scenario_A (mkdate 2020 6 1)
              (mkdate 2022 6 1) true Years Hasc) as [_ [Hgap _]].
  apply Hgap.
  - left. vm_compute. discriminate.
  - reflexivity.
Defined.

(** X2.  [add_bounds] makes one segment per pair of neighbouring rows:
    one fewer than the rows; the starts of the segments are the rows
    without the last one and their ends are the rows without the first
    one, so each segment ends where the next one starts. *)
Theorem add_bounds_chain (ds : dataset) :
  length (add_bounds ds) = (length ds - 1)%nat
  /\ map (fun x => (start_date x, start_value x)) (add_bounds ds)
     = removelast ds
  /\ map (fun x => (end_date x, end_value x)) (add_bounds ds) = tl ds.
Proof.
  split; [apply add_bounds_length|].
  split; [apply add_bounds_starts | apply add_bounds_ends].
Qed.

(** X3.  A table of valid dates with at least one row that passes
    [gap_check] at days passes it at months, and one that passes it at
    months passes it at years. *)
Theorem gap_check_coarser (ds : dataset) :
  Forall valid_date (map fst ds) ->
  ds <> [] ->
  (gap_check ds Days = Ok tt -> gap_check ds Months = Ok tt)
  /\ (gap_check ds Months = Ok tt -> gap_check ds Years = Ok tt).
Proof.
  intros Hv Hne.
  split; intros H; apply gap_check_ok_diffs in H;
    (apply gap_check_passes; [now left|]);
    rewrite <- (map_map fst) in *; cbn [period] in *.
  - revert H. apply diff_pairwise; [|assumption].
    intros a b Ha Hb. now apply day_step_month_step.
  - revert H. apply diff_pairwise; [|assumption].
    intros a b Ha Hb. now apply month_step_year_step.
Qed.

Lemma gap_check_coarser_witness :
  gap_check two_months Years = Ok tt.
Proof.
  assert (Hv : Forall valid_date (map fst two_months)).
  { repeat (constructor; [apply valid_dateb_spec; reflexivity|]).
    constructor. }
  assert (Hne : two_months <> []) by discriminate.
  destruct (gap_check_coarser two_months Hv Hne) as [_ H].
  apply H. reflexivity.
Defined.

(** ** Moving dates *)

Module DeltaFacts.

Local Open Scope Z_scope.

Lemma valid_prev_day d : valid_date d -> valid_date (prev_day d).
Proof.
  destruct d as [y m dd]. unfold valid_date, prev_day; simpl.
  intros [Hm Hd].
  destruct (1 <? dd) eqn:E1; simpl.
  - apply Z.ltb_lt in E1. lia.
  - destruct (1 <? m) eqn:E2; simpl.
    + apply Z.ltb_lt in E2.
      pose proof (days_in_month_bounds y (m - 1)). lia.
    + lia.
Qed.

Lemma iter_prev_day n d :
  valid_date d ->
  valid_date (Nat.iter n prev_day d)
  /\ toordinal (Nat.iter n prev_day d) = toordinal d - Z.of_nat n.
Proof.
  intros Hd. induction n as [|n [IHv IHo]].
  - simpl. split; [assumption | lia].
  - rewrite Nat.iter_succ. split.
    + apply valid_prev_day, IHv.
    + rewrite toordinal_prev_day by assumption. lia.
Qed.

Lemma add_days_spec d n :
  valid_date d ->
  valid_date (add_days d n) /\ toordinal (add_days d n) = toordinal d + n.
Proof.
  intros Hd. unfold add_days. destruct (0 <=? n) eqn:E.
  - apply Z.leb_le in E.
    destruct (iter_next_day (Z.to_nat n) d Hd) as [Hv Ho].
    split; [assumption | lia].
  - apply Z.leb_gt in E.
    destruct (iter_prev_day (Z.to_nat (- n)) d Hd) as [Hv Ho].
    split; [assumption | lia].
Qed.

Lemma add_months_keeps_day d n :
  valid_date d -> day d <= 28 -> day (add_months d n) = day d.
Proof.
  intros _ Hd. unfold add_months; cbn [day].
  pose proof (days_in_month_bounds ((month_period d + n) / 12)
                ((month_period d + n) mod 12 + 1)).
  lia.
Qed.

Lemma add_months_back d n :
  valid_date d -> day d <= 28 -> add_months (add_months d n) (- n) = d.
Proof.
  intros Hv Hd. pose proof Hv as [Hm _].
  pose proof (add_months_keeps_day d n Hv Hd) as Hday.
  unfold add_months at 1.
  rewrite month_period_add_months, Hday.
  replace (month_period d + n + - n) with (month_period d) by lia.
  destruct (month_period_div d Hm) as [-> ->].
  pose proof (days_in_month_bounds (year d) (month d)).
  destruct d as [y m dd]; cbn [year month day] in *.
  f_equal. lia.
Qed.

Lemma add_years_back d n :
  valid_date d -> day d <= 28 -> add_years (add_years d n) (- n) = d.
Proof.
  intros Hv Hd. unfold add_years; cbn [year month day].
  pose proof (days_in_month_bounds (year d + n) (month d)).
  pose proof (days_in_month_bounds (year d + n + - n) (month d)).
  destruct d as [y m dd]; cbn [year month day] in *.
  f_equal; lia.
Qed.

End DeltaFacts.

Import DeltaFacts.

(** X4.  [date_delta] moves an existing date by exactly [n] periods of
    the unit, forwards or backwards, and gives an existing date. *)
Theorem date_delta_periods (u : time_unit) (d : date) (n : Z) :
  valid_date d ->
  valid_date (date_delta u d n)
  /\ period u (date_delta u d n) = (period u d + n)%Z.
Proof.
  intros Hd. destruct u; cbn [date_delta period].
  - now apply add_days_spec.
  - split; [now apply valid_add_months | apply month_period_add_months].
  - split; [now apply valid_add_years | reflexivity].
Qed.

Lemma date_delta_periods_witness :
  period Months (date_delta Months (mkdate 2020 1 31) 1)
  = (period Months (mkdate 2020 1 31) + 1)%Z.
Proof.
  apply (date_delta_periods Months (mkdate 2020 1 31) 1).
  apply valid_dateb_spec. reflexivity.
Defined.

(** X5.  Moving a date by [n] steps and then by [-n] steps gives the
    date back: always for days, and for months and years whenever the
    day of the month is at most 28, where no month is too short for it.
    A month or year step keeps such a day of the month. *)
Theorem date_delta_round_trip (u : time_unit) (d : date) (n : Z) :
  valid_date d ->
  (u = Days \/ (day d <= 28)%Z) ->
  date_delta u (date_delta u d n) (- n) = d
  /\ (u <> Days -> day (date_delta u d n) = day d).
Proof.
  intros Hd Hu. destruct u; cbn [date_delta].
  - split; [|congruence].
    destruct (add_days_spec d n Hd) as [Hv Ho].
    destruct (add_days_spec (add_days d n) (- n) Hv) as [Hv' Ho'].
    apply toordinal_inj; try assumption. lia.
  - destruct Hu as [Hu | Hu]; [discriminate|].
    split; [now apply add_months_back|].
    intros _. now apply add_months_keeps_day.
  - destruct Hu as [Hu | Hu]; [discriminate|].
    split; [now apply add_years_back|].
    intros _. unfold add_years; cbn [day].
    pose proof (days_in_month_bounds (year d + n) (month d)). lia.
Qed.

Lemma date_delta_round_trip_witness :
  date_delta Days (date_delta Days (mkdate 2020 2 28) 2) (- 2)
  = mkdate 2020 2 28.
Proof.
  apply (date_delta_round_trip Days (mkdate 2020 2 28) 2).
  - apply valid_dateb_spec. reflexivity.
  - now left.
Defined.

(** ** Further properties of extrapolation *)

Module ExtrapolateFacts.

Local Open Scope R_scope.

Lemma filter_no_match {A} (f : A -> bool) l :
  (forall x, In x l -> f x = false) -> filter f l = [].
Proof.
  induction l as [|a l IH]; intros H; [reflexivity|].
  cbn [filter]. rewrite (H a) by now left.
  apply IH. intros x Hx. apply H. now right.
Qed.

Lemma add_rate_linear_explicit rows :
  Forall (fun x => (1 <= timesteps x)%nat) rows ->
  add_rate rows Linear
  = Ok (map (fun x =>
               set_rate ((end_value x - start_value x) / INR (timesteps x)) x)
            rows).
Proof.
  unfold add_rate. induction rows as [|x rows IH]; intros H; [reflexivity|].
  inversion H as [|? ? Hx Hrows]; subst.
  cbn [map collect]. rewrite (row_rate_linear x Hx). cbn [bind].
  now rewrite (IH Hrows).
Qed.

(** The differences of neighbouring values add up to the difference of
    the last and the first value. *)
Lemma differences_telescope (w : dataset) (r0 : date * R) :
  fold_right Rplus 0
    (map (fun x => (end_value x - start_value x) / INR 1)
         (add_bounds (r0 :: w)))
  = snd (last w r0) - snd r0.
Proof.
  revert r0. induction w as [|r1 w IH]; intros [d v].
  - cbn. ring.
  - destruct r1 as [d' v']. rewrite add_bounds_cons2.
    cbn [map fold_right start_value end_value]. rewrite IH.
    rewrite last_cons. cbn [snd INR]. field.
Qed.

(** A sorted table has at most one row at a given date. *)
Lemma at_most_one_row (l : dataset) (c : date) :
  ascending (map fst l) ->
  (length (filter (fun r => date_leb c (fst r) && date_leb (fst r) c) l)
   <= 1)%nat.
Proof.
  intros Hasc. induction l as [|a l IH]; [simpl; lia|].
  cbn [map] in Hasc. apply StronglySorted_inv in Hasc.
  destruct Hasc as [Hs Hall]. cbn [filter].
  destruct (date_leb c (fst a) && date_leb (fst a) c) eqn:E.
  - rewrite filter_no_match; [simpl; lia|].
    intros r Hr. unfold date_leb in *.
    apply andb_true_iff in E. destruct E as [E1 E2].
    apply Z.leb_le in E1, E2.
    rewrite Forall_forall in Hall.
    assert (toordinal (fst a) < toordinal (fst r))%Z
      by (apply Hall; now apply in_map).
    apply andb_false_iff. right. apply Z.leb_gt. lia.
  - now apply IH.
Qed.

Lemma date_delta_zero u d : valid_date d -> date_delta u d 0 = d.
Proof.
  intros [Hm Hd]. destruct u; cbn [date_delta].
  - reflexivity.
  - unfold add_months. rewrite Z.add_0_r.
    destruct (month_period_div d Hm) as [-> ->].
    destruct d as [y m dd]; cbn [year month day] in *. f_equal. lia.
  - unfold add_years. rewrite Z.add_0_r.
    destruct d as [y m dd]; cbn [year month day] in *. f_equal. lia.
Qed.

End ExtrapolateFacts.

Import ExtrapolateFacts.

(** X6.  [extrapolate] raises [IndexError] when no row of the table has
    the anchor date, whatever the other arguments are. *)
Theorem extrapolate_anchor_missing (ds : dataset) (rt : rate_type)
    (u : time_unit) (anchor : date) (ft : nat) (pt : Z) :
  (forall r, In r ds -> toordinal (fst r) <> toordinal anchor) ->
  extrapolate ds rt u anchor ft pt = Raised IndexError.
Proof.
  intros H. unfold extrapolate.
  rewrite filter_no_match; [reflexivity|].
  intros r Hr. unfold date_eqb. apply Z.eqb_neq. now apply H.
Qed.

Lemma extrapolate_anchor_missing_witness :
  extrapolate scenario_A Linear Years (mkdate 2020 6 1) 3 (-2)
  = Raised IndexError.
Proof.
  apply extrapolate_anchor_missing.
  intros r [<- | [<- | [<- | []]]]; vm_compute; discriminate.
Defined.

(** X7.  With linear rates, when the window has two or more rows and
    passes the gap check, the rate [extrapolate] projects with is the
    overall slope of the window: its last value minus its first value,
    divided by the number of its segments.  The values in between do not
    matter. *)
Theorem extrapolate_linear_slope (ds : dataset) (u : time_unit)
    (anchor : date) (ft : nat) (pt : Z) (a first : date * R) (w : dataset) :
  hd_error (filter (fun r => date_eqb (fst r) anchor) ds) = Some a ->
  filter_data ds (date_delta u anchor pt) anchor true = first :: w ->
  w <> [] ->
  gap_check (first :: w) u = Ok tt ->
  extrapolate ds Linear u anchor ft pt
  = Ok (extrapolated_dataset Linear u
          ((snd (last w first) - snd first) / INR (length w))%R
          anchor (snd a) ft).
Proof.
  intros Ha Hw Hne Hg. unfold extrapolate.
  destruct (filter (fun r => date_eqb (fst r) anchor) ds) as [|a' l];
    [discriminate|].
  injection Ha as ->. cbn [bind].
  rewrite Hw, Hg. cbn [bind].
  rewrite add_rate_linear_explicit.
  2:{ apply Forall_forall. intros x Hx. apply in_map_iff in Hx.
      destruct Hx as [y [<- _]]. cbn. lia. }
  cbn [bind]. rewrite !map_map.
  cbn [rate set_rate set_timesteps timesteps end_value start_value].
  assert (Hlen : length (add_bounds (first :: w)) = length w).
  { rewrite add_bounds_length. simpl. lia. }
  unfold mean.
  destruct (map _ (add_bounds (first :: w))) as [|r0 rs] eqn:E.
  { apply (f_equal (@length R)) in E. rewrite length_map, Hlen in E.
    destruct w; [congruence | discriminate]. }
  rewrite <- E, length_map, Hlen, differences_telescope.
  reflexivity.
Qed.

Lemma extrapolate_linear_slope_witness :
  extrapolate (trend 100) Linear Years trend_anchor 3 (-2)
  = Ok (extrapolated_dataset Linear Years ((100 - (100 - 20)) / INR 2)%R
          trend_anchor 100%R 3).
Proof.
  apply (extrapolate_linear_slope (trend 100) Years trend_anchor 3 (-2)
           (mkdate 2020 1 1, 100%R) (mkdate 2018 1 1, (100 - 20)%R)
           [(mkdate 2019 1 1, (100 - 10)%R); (mkdate 2020 1 1, 100%R)]).
  - reflexivity.
  - reflexivity.
  - discriminate.
  - reflexivity.
Defined.

(** X8.  Whenever [extrapolate] returns a table of real values (none
    of them NaN), the table has [future_timesteps + 1] rows and its
    first row carries the value of the first row of the input at the
    anchor date, unchanged, at the first date of the frequency that is
    not before the anchor date; at days that is the anchor date
    itself. *)
Theorem extrapolate_result_shape (ds : dataset) (rt : rate_type)
    (u : time_unit) (anchor : date) (ft : nat) (pt : Z) (out : dataset) :
  extrapolate ds rt u anchor ft pt = Ok out ->
  length out = (ft + 1)%nat
  /\ exists a,
       hd_error (filter (fun r => date_eqb (fst r) anchor) ds) = Some a
       /\ hd_error out = Some (period_end u anchor, snd a)
       /\ period_end Days anchor = anchor.
Proof.
  unfold extrapolate. intros H.
  destruct (filter (fun r => date_eqb (fst r) anchor) ds) as [|a l];
    [discriminate|].
  cbn [bind] in H.
  destruct (gap_check _ u); cbn [bind] in H; try discriminate.
  destruct (add_rate _ rt) as [rows | e |]; cbn [bind] in H; try discriminate.
  assert (Hhd : forall (vals : list R) (v0 : R),
            hd_error vals = Some v0 ->
            length vals = (ft + 1)%nat ->
            length (combine (date_range_periods u anchor (ft + 1)) vals)
            = (ft + 1)%nat
            /\ hd_error (combine (date_range_periods u anchor (ft + 1)) vals)
               = Some (period_end u anchor, v0)).
  { intros vals v0 Hv Hl. split.
    - rewrite length_combine, Hl.
      unfold date_range_periods.
      destruct u; rewrite length_map, length_seq; apply Nat.min_id.
    - destruct vals as [|v1 vals]; [discriminate|].
      injection Hv as ->. unfold date_range_periods, period_end.
      rewrite Nat.add_1_r.
      destruct u; cbn [seq map combine hd_error]; rewrite ?Z.add_0_r;
        reflexivity. }
  destruct (mean _) as [avg|].
  - injection H as <-. unfold extrapolated_dataset.
    destruct (Hhd (extrapolated_values rt avg (snd a) ft) (snd a))
      as [Hlen Hfirst].
    + unfold extrapolated_values. rewrite Nat.add_1_r.
      destruct rt; cbn [seq map hd_error]; f_equal; simpl; ring.
    + apply extrapolated_values_length.
    + split; [exact Hlen|]. exists a. repeat split. exact Hfirst.
  - unfold extrapolated_dataset_nan in H.
    destruct rt; [discriminate|]. destruct ft; [|discriminate].
    injection H as <-.
    destruct (Hhd [(snd a * 1)%R] (snd a)) as [Hlen Hfirst].
    + cbn [hd_error]. f_equal. ring.
    + reflexivity.
    + split; [exact Hlen|]. exists a. repeat split. exact Hfirst.
Qed.

Lemma extrapolate_result_shape_witness :
  exists out,
    extrapolate (trend 100) Linear Years trend_anchor 3 (-2) = Ok out
    /\ length out = 4%nat.
Proof.
  assert (Hrun : exists out,
             extrapolate (trend 100) Linear Years trend_anchor 3 (-2)
             = Ok out).
  { eexists. unfold trend, trend_anchor.
    cbv -[Rplus Rminus Rmult Rdiv Rinv INR IZR Ropp]. reflexivity. }
  destruct Hrun as [out Hrun]. exists out. split; [exact Hrun|].
  apply (extrapolate_result_shape (trend 100) Linear Years trend_anchor 3
           (-2) out Hrun).
Defined.

(** X9.  On a table sorted by date without repeated dates, with linear
    rates or with at least one future step, [extrapolate] returns no
    table of real values unless [past_timesteps] is negative: it adds
    [past_timesteps] to the anchor date, so for a positive count the
    window lies after the anchor date and is empty, and for zero it is
    the anchor row alone; there is no segment to take a rate from and
    the mean rate is NaN.  For a positive count at months and years the
    call already ends in the gap check, which raises [TypeError] on the
    empty window. *)
Theorem extrapolate_needs_negative_past (ds : dataset) (rt : rate_type)
    (u : time_unit) (anchor : date) (ft : nat) (pt : Z) :
  valid_date anchor ->
  ascending (map fst ds) ->
  (0 <= pt)%Z ->
  rt = Linear \/ (1 <= ft)%nat ->
  (forall out, extrapolate ds rt u anchor ft pt <> Ok out)
  /\ ((0 < pt)%Z -> u <> Days ->
      (exists r, In r ds /\ toordinal (fst r) = toordinal anchor) ->
      extrapolate ds rt u anchor ft pt = Raised TypeError).
Proof.
  intros Ha Hasc Hpt Hcase. split.
  - intros out. destruct (Z.eq_dec pt 0) as [-> | Hne].
    + unfold extrapolate.
      destruct (filter (fun r => date_eqb (fst r) anchor) ds); cbn [bind];
        [discriminate|].
      rewrite date_delta_zero by assumption.
      pose proof (at_most_one_row ds anchor Hasc) as Hone.
      unfold filter_data.
      destruct (filter _ ds) as [|r0 [|r1 w]]; cbn [length] in Hone; try lia.
      * destruct u; cbn; try discriminate.
        destruct rt; [discriminate|]. destruct ft; [|discriminate].
        destruct Hcase as [H | H]; [discriminate | lia].
      * assert (Hg : gap_check [r0] u = Ok tt) by (destruct u; reflexivity).
        rewrite Hg. destruct r0. cbn.
        destruct rt; [discriminate|]. destruct ft; [|discriminate].
        destruct Hcase as [H | H]; [discriminate | lia].
    + apply positive_past_no_table; [assumption | lia | tauto].
  - intros Hpos Hu Hr. now apply positive_past_type_error.
Qed.

Lemma extrapolate_needs_negative_past_witness :
  extrapolate scenario_A Linear Years (mkdate 2022 1 1) 3 0
  <> Ok [(mkdate 2022 12 31, 200%R)].
Proof.
  apply extrapolate_needs_negative_past.
  - apply valid_dateb_spec. reflexivity.
  - unfold ascending. repeat constructor; vm_compute; reflexivity.
  - lia.
  - now left.
Defined.

(** X10.  [yearly_to_monthly] returns a table for a yearly table of
    valid dates only when the table has at most two rows, and for two
    rows only when they are a December and the January after it: any
    other yearly table is stopped by the monthly gap check. *)
Theorem yearly_to_monthly_accepts (ds : dataset) (rt : rate_type)
    (out : dataset) :
  Forall valid_date (map fst ds) ->
  contiguous Years ds ->
  yearly_to_monthly ds rt = Ok out ->
  (length ds <= 2)%nat
  /\ (forall a b, ds = [a; b] -> month (fst a) = 12%Z /\ month (fst b) = 1%Z).
Proof.
  intros Hv Hc Hrun. split.
  - destruct (Nat.le_gt_cases (length ds) 2) as [|Hlen]; [assumption|].
    rewrite (yearly_to_monthly_raises ds rt Hv Hc) in Hrun by lia.
    discriminate.
  - intros [da va] [db vb] ->.
    unfold yearly_to_monthly in Hrun.
    destruct (gap_check _ Months) as [[] | e |] eqn:Hg; cbn [bind] in Hrun;
      try discriminate.
    apply gap_check_ok_diffs in Hg.
    cbn [map fst period diff] in Hg. inversion Hg as [|? ? Hstep _]; subst.
    unfold contiguous in Hc. cbn [map fst periods period diff] in Hc.
    inversion Hc as [|? ? Hyear _]; subst.
    inversion Hv as [|? ? [Hma _] Hv']; subst.
    inversion Hv' as [|? ? [Hmb _] _]; subst.
    cbn [fst] in *. unfold month_period, year_period in *. lia.
Qed.

Lemma yearly_to_monthly_accepts_witness :
  (length [(mkdate 2020 12 31, 1%R); (mkdate 2021 1 31, 2%R)] <= 2)%nat.
Proof.
  assert (Hrun : exists out,
             yearly_to_monthly
               [(mkdate 2020 12 31, 1%R); (mkdate 2021 1 31, 2%R)] Linear
             = Ok out).
  { eexists. cbv -[Rplus Rminus Rmult Rdiv Rinv INR IZR Ropp]. reflexivity. }
  destruct Hrun as [out Hrun].
  apply (yearly_to_monthly_accepts _ Linear out).
  - repeat (constructor; [apply valid_dateb_spec; reflexivity|]).
    constructor.
  - unfold contiguous. vm_compute. repeat constructor.
  - exact Hrun.
Defined.

(** ** Further properties of filling *)

Module FillFacts.

Local Open Scope Z_scope.

Lemma combine_app_eq {A B} (a b : list A) (c d : list B) :
  length a = length c ->
  combine (a ++ b) (c ++ d) = combine a c ++ combine b d.
Proof.
  revert c. induction a as [|x a IH]; intros [|y c] H; simpl in *;
    try reflexivity; try discriminate.
  f_equal. apply IH. lia.
Qed.

Lemma combine_concat_map {X A B} (f : X -> list A) (g : X -> list B) l :
  (forall x, In x l -> length (f x) = length (g x)) ->
  combine (concat (map f l)) (concat (map g l))
  = flat_map (fun x => combine (f x) (g x)) l.
Proof.
  induction l as [|x l IH]; intros H; [reflexivity|].
  cbn [map concat flat_map].
  rewrite combine_app_eq by (apply H; now left).
  f_equal. apply IH. intros y Hy. apply H. now right.
Qed.

(** Under linear rates the filled table is the rows of the segments in
    order, followed by the last row of the input. *)
Lemma fill_gaps_linear_rows u (ds body : dataset) final :
  Forall valid_date (map fst ds) ->
  increasing u (map fst ds) ->
  ds = body ++ [final] -> body <> [] ->
  fill_gaps ds Linear u
  = Ok (flat_map (linear_segment u) (add_bounds ds) ++ [final]).
Proof.
  intros Hv Hi Hds Hbody.
  pose proof (add_bounds_segments u ds Hv Hi) as Hseg.
  assert (Hlast : last_row ds = [final]).
  { rewrite Hds. apply last_row_ascending. rewrite <- Hds.
    now apply (increasing_ascending u). }
  assert (Hlen : (1 <= length (add_bounds ds))%nat).
  { rewrite add_bounds_length, Hds, length_app. simpl.
    destruct body; [congruence | simpl; lia]. }
  unfold fill_gaps. rewrite Hlast.
  set (with_range := fun x =>
         set_date_range (date_range_left u (start_date x) (end_date x)) x).
  assert (Hadd : add_daterange (add_bounds ds) u
                 = Ok (map with_range (add_bounds ds))).
  { destruct (add_bounds ds); [simpl in Hlen; lia | reflexivity]. }
  rewrite Hadd. cbn [bind].
  rewrite add_rate_linear_explicit.
  2:{ unfold add_timesteps. rewrite map_map.
      apply Forall_forall. intros y Hy. apply in_map_iff in Hy.
      destruct Hy as [x [<- Hx]].
      rewrite Forall_forall in Hseg. destruct (Hseg x Hx) as [Hs [He Hlt]].
      cbn [timesteps set_timesteps date_range with_range set_date_range].
      rewrite date_range_left_length
        by (try assumption; now apply (period_lt_toordinal_neq u)).
      lia. }
  cbn [bind]. do 2 f_equal.
  unfold interpolated_dataset, add_interpolated_values, add_timesteps.
  rewrite !map_map.
  cbn [date_range interpolated set_interpolated set_rate set_timesteps
       with_range set_date_range interpolate_row timesteps start_value
       end_value rate start_date end_date].
  apply (combine_concat_map
           (fun x => date_range_left u (start_date x) (end_date x))).
  intros x _. now rewrite length_map, length_seq.
Qed.

Lemma in_removelast_in {A} (l : list A) x : In x (removelast l) -> In x l.
Proof.
  induction l as [|a l IH]; [intros []|].
  destruct l as [|b l]; [intros []|].
  change (removelast (a :: b :: l)) with (a :: removelast (b :: l)).
  intros [-> | H]; [now left | right; now apply IH].
Qed.

Lemma in_tl_in {A} (l : list A) x : In x (tl l) -> In x l.
Proof. destruct l; [intros [] | intros H; now right]. Qed.

Lemma add_bounds_steps (P : Z -> Prop) u (ds : dataset) :
  Forall P (diff (periods u (map fst ds))) ->
  Forall (fun x => P (period u (end_date x) - period u (start_date x)))
         (add_bounds ds).
Proof.
  induction ds as [|[d v] ds IH]; intros H; [constructor|].
  destruct ds as [|[d' v'] t]; [constructor|].
  cbn [map periods diff fst] in H.
  inversion H as [|? ? Hstep Hrest]; subst.
  rewrite add_bounds_cons2. constructor; [exact Hstep|].
  apply IH. exact Hrest.
Qed.

(** The range of a segment between valid dates in increasing periods
    starts with the date the period of its start is reported at. *)
Lemma date_range_left_hd u s e :
  valid_date s -> valid_date e -> period u s < period u e ->
  exists rest, date_range_left u s e = period_end u s :: rest.
Proof.
  intros Hs He Hlt.
  assert (Hn : exists n, Z.to_nat (period u e - period u s) = S n).
  { exists (Z.to_nat (period u e - period u s - 1)). lia. }
  destruct Hn as [n Hn].
  rewrite date_range_left_form
    by (try assumption; now apply (period_lt_toordinal_neq u)).
  rewrite Hn. cbn [seq map]. eexists. f_equal.
  destruct u; cbn [period_end nth_period_end]; rewrite ?Z.add_0_r;
    reflexivity.
Qed.

(** The rows of a segment start with its start value, at the date the
    period of its start date is reported at. *)
Lemma linear_segment_hd u x :
  valid_date (start_date x) -> valid_date (end_date x) ->
  period u (start_date x) < period u (end_date x) ->
  exists rest,
    linear_segment u x = (period_end u (start_date x), start_value x) :: rest.
Proof.
  intros Hs He Hlt.
  destruct (date_range_left_hd u _ _ Hs He Hlt) as [rest Hr].
  unfold linear_segment. rewrite Hr. cbn [length seq map combine].
  eexists. f_equal. f_equal. simpl. ring.
Qed.

(** A segment of one step contributes its start row alone. *)
Lemma linear_segment_one_step u x :
  valid_date (start_date x) -> valid_date (end_date x) ->
  period u (end_date x) - period u (start_date x) = 1 ->
  linear_segment u x = [at_period_end u (start_date x, start_value x)].
Proof.
  intros Hs He H1.
  assert (Hlt : period u (start_date x) < period u (end_date x)) by lia.
  destruct (date_range_left_hd u _ _ Hs He Hlt) as [rest Hr].
  pose proof (date_range_left_length u _ _ Hs He
                (period_lt_toordinal_neq u _ _ Hs He Hlt)) as Hlen.
  rewrite Hr, H1 in Hlen. destruct rest; [|simpl in Hlen; lia].
  unfold linear_segment, at_period_end. rewrite Hr.
  cbn [length seq map combine fst snd]. do 2 f_equal. simpl. field.
Qed.

Lemma flat_map_singletons {A B} (f : A -> list B) (g : A -> B) l :
  (forall x, In x l -> f x = [g x]) -> flat_map f l = map g l.
Proof.
  induction l as [|a l IH]; intros H; [reflexivity|].
  cbn [flat_map map]. rewrite (H a) by now left.
  cbn [app]. f_equal. apply IH. intros x Hx. apply H. now right.
Qed.

(** A value a fraction of the way from [v0] to [v1] lies between them. *)
Lemma between_endpoints (v0 v1 a b : R) :
  (0 <= a < b)%R ->
  (Rmin v0 v1 <= v0 + a * ((v1 - v0) / b) <= Rmax v0 v1)%R.
Proof.
  intros [Ha Hb].
  assert (Hb0 : (0 < b)%R) by lra.
  set (t := (a / b)%R).
  assert (Ht : (0 <= t <= 1)%R).
  { unfold t. split.
    - apply Rmult_le_pos; [assumption|].
      apply Rlt_le, Rinv_0_lt_compat. assumption.
    - apply (Rmult_le_reg_r b); [assumption|].
      unfold Rdiv. rewrite Rmult_assoc, Rinv_l by lra. lra. }
  replace (v0 + a * ((v1 - v0) / b))%R with (v0 + t * (v1 - v0))%R
    by (unfold t; field; lra).
  unfold Rmin, Rmax. destruct (Rle_dec v0 v1); nra.
Qed.

Lemma linear_segment_between u x r :
  In r (linear_segment u x) ->
  (Rmin (start_value x) (end_value x) <= snd r
   <= Rmax (start_value x) (end_value x))%R.
Proof.
  destruct r as [d v]. unfold linear_segment. intros H.
  apply in_combine_r in H. apply in_map_iff in H.
  destruct H as [n [<- Hn]]. apply in_seq in Hn. cbn [snd].
  apply between_endpoints. split.
  - apply pos_INR.
  - apply lt_INR. lia.
Qed.

(** What the linear fill of a table holds: every row but the last at
    the date its period is reported at, the last row, and only values
    between those of two rows of the input. *)
Lemma fill_gaps_linear_content u (ds body : dataset) final :
  Forall valid_date (map fst ds) ->
  increasing u (map fst ds) ->
  ds = body ++ [final] -> body <> [] ->
  exists out,
    fill_gaps ds Linear u = Ok out
    /\ (forall r, In r body -> In (at_period_end u r) out)
    /\ In final out
    /\ (forall r, In r out ->
          exists r1 r2,
            In r1 ds /\ In r2 ds
            /\ (Rmin (snd r1) (snd r2) <= snd r <= Rmax (snd r1) (snd r2))%R).
Proof.
  intros Hv Hi Hds Hbody.
  exists (flat_map (linear_segment u) (add_bounds ds) ++ [final]).
  split; [now apply (fill_gaps_linear_rows u ds body final)|].
  pose proof (add_bounds_segments u ds Hv Hi) as Hseg.
  rewrite Forall_forall in Hseg.
  split; [|split].
  - intros r Hr. apply in_or_app. left.
    assert (Hin : In r (removelast ds))
      by (rewrite Hds, removelast_last; exact Hr).
    rewrite <- add_bounds_starts in Hin. apply in_map_iff in Hin.
    destruct Hin as [x [<- Hx]].
    destruct (Hseg x Hx) as [Hs [He Hlt]].
    destruct (linear_segment_hd u x Hs He Hlt) as [rest Hrest].
    apply in_flat_map. exists x. split; [assumption|].
    rewrite Hrest. now left.
  - apply in_or_app. right. now left.
  - intros r Hr. apply in_app_or in Hr. destruct Hr as [Hr | [<- | []]].
    + apply in_flat_map in Hr. destruct Hr as [x [Hx Hr]].
      exists (start_date x, start_value x), (end_date x, end_value x).
      split; [|split].
      * apply in_removelast_in. rewrite <- add_bounds_starts.
        apply in_map_iff. now exists x.
      * apply in_tl_in. rewrite <- add_bounds_ends.
        apply in_map_iff. now exists x.
      * cbn [snd]. now apply (linear_segment_between u).
    + exists final, final. rewrite Hds.
      split; [apply in_or_app; right; now left|].
      split; [apply in_or_app; right; now left|].
      unfold Rmin, Rmax. destruct (Rle_dec (snd final) (snd final)); lra.
Qed.

(** One row per period, from the period of the first row to that of the
    last. *)
Lemma fill_gaps_periods u (t : dataset) (r : date * R) rt out :
  Forall valid_date (map fst (r :: t)) ->
  increasing u (map fst (r :: t)) ->
  fill_gaps (r :: t) rt u = Ok out ->
  periods u (map fst out)
  = consecutive (period u (fst r))
      (S (Z.to_nat (period u (last (map fst t) (fst r)) - period u (fst r)))).
Proof.
  intros Hv Hi Hrun.
  destruct (fill_gaps_dates _ _ _ _ Hrun) as [filled [Hout Hfilled]].
  destruct (@exists_last _ (r :: t)) as [body [final Hds]]; [discriminate|].
  assert (Hasc : ascending (map fst (body ++ [final]))).
  { rewrite <- Hds. now apply (increasing_ascending u). }
  assert (Hfinal : last (map fst t) (fst r) = fst final).
  { rewrite <- (last_cons _ _ (fst r)).
    change (fst r :: map fst t) with (map fst (r :: t)).
    rewrite Hds, map_app. cbn [map]. apply last_last. }
  rewrite Hds in Hout at 1. rewrite last_row_ascending in Hout by assumption.
  destruct (segments_periods u t r Hv Hi) as [Hp _].
  rewrite <- Hfilled in Hp. rewrite Hout, map_app. cbn [map].
  rewrite <- Hfinal. exact Hp.
Qed.

End FillFacts.

Import FillFacts.

(** X11.  With linear rates, on a table of valid dates in increasing
    periods of the unit, [fill_gaps] returns a table that passes through
    the observations: every row but the last appears with its value
    unchanged at the date its period is reported at, the last row
    appears as it is, and at days every row of the input is a row of the
    output. *)
Theorem fill_gaps_linear_through_observations (u : time_unit)
    (ds body : dataset) (final : date * R) :
  Forall valid_date (map fst ds) ->
  increasing u (map fst ds) ->
  ds = body ++ [final] -> body <> [] ->
  exists out,
    fill_gaps ds Linear u = Ok out
    /\ (forall r, In r body -> In (at_period_end u r) out)
    /\ In final out
    /\ (u = Days -> forall r, In r ds -> In r out).
Proof.
  intros Hv Hi Hds Hbody.
  destruct (fill_gaps_linear_content u ds body final Hv Hi Hds Hbody)
    as [out [Hrun [Hthrough [Hfinal _]]]].
  exists out. repeat split; try assumption.
  intros -> r Hr. rewrite Hds in Hr. apply in_app_or in Hr.
  destruct Hr as [Hr | [<- | []]]; [|assumption].
  specialize (Hthrough r Hr). now destruct r.
Qed.

Lemma fill_gaps_linear_through_observations_witness :
  exists out,
    fill_gaps two_year_jump Linear Years = Ok out
    /\ In (mkdate 2020 12 31, 100%R) out.
Proof.
  destruct (fill_gaps_linear_through_observations Years two_year_jump
              [(mkdate 2020 1 1, 100%R)] (mkdate 2022 1 1, 200%R))
    as [out [Hrun [Hthrough _]]].
  - repeat (constructor; [apply valid_dateb_spec; reflexivity|]).
    constructor.
  - unfold increasing. vm_compute. repeat constructor.
  - reflexivity.
  - discriminate.
  - exists out. split; [exact Hrun|].
    apply (Hthrough (mkdate 2020 1 1, 100%R)). now left.
Defined.

(** X12.  With linear rates, every value of the table [fill_gaps]
    returns lies between the values of two rows of the input: linear
    filling never goes below the smaller or above the larger of the two
    observations it interpolates between. *)
Theorem fill_gaps_linear_within_observations (u : time_unit)
    (ds body : dataset) (final : date * R) :
  Forall valid_date (map fst ds) ->
  increasing u (map fst ds) ->
  ds = body ++ [final] -> body <> [] ->
  exists out,
    fill_gaps ds Linear u = Ok out
    /\ forall r, In r out ->
         exists r1 r2,
           In r1 ds /\ In r2 ds
           /\ (Rmin (snd r1) (snd r2) <= snd r <= Rmax (snd r1) (snd r2))%R.
Proof.
  intros Hv Hi Hds Hbody.
  destruct (fill_gaps_linear_content u ds body final Hv Hi Hds Hbody)
    as [out [Hrun [_ [_ Hwithin]]]].
  exists out. split; assumption.
Qed.

Lemma fill_gaps_linear_within_observations_witness :
  exists out,
    fill_gaps two_year_jump Linear Years = Ok out
    /\ forall r, In r out ->
         exists r1 r2,
           In r1 two_year_jump /\ In r2 two_year_jump
           /\ (Rmin (snd r1) (snd r2) <= snd r <= Rmax (snd r1) (snd r2))%R.
Proof.
  apply (fill_gaps_linear_within_observations Years two_year_jump
           [(mkdate 2020 1 1, 100%R)] (mkdate 2022 1 1, 200%R)).
  - repeat (constructor; [apply valid_dateb_spec; reflexivity|]).
    constructor.
  - unfold increasing. vm_compute. repeat constructor.
  - reflexivity.
  - discriminate.
Defined.

(** X13.  For a table of valid dates in increasing periods of the unit,
    the table [fill_gaps] returns, with either rate type, has exactly
    one row per period from the period of the first row to the period
    of the last row. *)
Theorem fill_gaps_one_row_per_period (u : time_unit) (r : date * R)
    (t : dataset) (rt : rate_type) (out : dataset) :
  Forall valid_date (map fst (r :: t)) ->
  increasing u (map fst (r :: t)) ->
  fill_gaps (r :: t) rt u = Ok out ->
  let n := S (Z.to_nat (period u (last (map fst t) (fst r))
                        - period u (fst r))) in
  periods u (map fst out) = consecutive (period u (fst r)) n
  /\ length out = n.
Proof.
  intros Hv Hi Hrun. cbn zeta.
  pose proof (fill_gaps_periods u t r rt out Hv Hi Hrun) as Hp.
  split; [exact Hp|].
  apply (f_equal (@length Z)) in Hp.
  unfold periods, consecutive in Hp.
  now rewrite !length_map, length_seq in Hp.
Qed.

Lemma fill_gaps_one_row_per_period_witness :
  exists out,
    fill_gaps two_year_jump Linear Months = Ok out /\ length out = 25%nat.
Proof.
  assert (Hrun : exists out, fill_gaps two_year_jump Linear Months = Ok out).
  { eexists. unfold two_year_jump.
    cbv -[Rplus Rminus Rmult Rdiv Rinv INR IZR Ropp]. reflexivity. }
  destruct Hrun as [out Hrun]. exists out. split; [exact Hrun|].
  apply (fill_gaps_one_row_per_period Months (mkdate 2020 1 1, 100%R)
           [(mkdate 2022 1 1, 200%R)] Linear out).
  - repeat (constructor; [apply valid_dateb_spec; reflexivity|]).
    constructor.
  - unfold increasing. vm_compute. repeat constructor.
  - exact Hrun.
Defined.

(** X14.  On a table that is already contiguous at the unit,
    [fill_gaps] with linear rates adds no row and changes no value: it
    returns every row but the last at the date its period is reported
    at, then the last row.  At days it returns the table itself. *)
Theorem fill_gaps_contiguous_unchanged (u : time_unit) (ds body : dataset)
    (final : date * R) :
  Forall valid_date (map fst ds) ->
  contiguous u ds ->
  ds = body ++ [final] -> body <> [] ->
  fill_gaps ds Linear u = Ok (map (at_period_end u) body ++ [final])
  /\ (u = Days -> fill_gaps ds Linear u = Ok ds).
Proof.
  intros Hv Hc Hds Hbody.
  assert (Hi : increasing u (map fst ds)).
  { unfold increasing. unfold contiguous in Hc.
    eapply Forall_impl; [|exact Hc]. intros z Hz. cbv beta in Hz. lia. }
  assert (Hrun : fill_gaps ds Linear u
                 = Ok (map (at_period_end u) body ++ [final])).
  { rewrite (fill_gaps_linear_rows u ds body final Hv Hi Hds Hbody).
    do 2 f_equal.
    rewrite (flat_map_singletons _
               (fun x => at_period_end u (start_date x, start_value x))).
    - rewrite <- (map_map (fun x => (start_date x, start_value x))
                          (at_period_end u)).
      rewrite add_bounds_starts, Hds, removelast_last. reflexivity.
    - intros x Hx.
      pose proof (add_bounds_valid ds Hv) as Hval.
      pose proof (add_bounds_steps (fun z => z = 1%Z) u ds Hc) as Hstep.
      rewrite Forall_forall in Hval, Hstep.
      destruct (Hval x Hx) as [Hs He].
      apply linear_segment_one_step; try assumption. now apply Hstep. }
  split; [exact Hrun|].
  intros ->.
  assert (Hid : map (at_period_end Days) body = body).
  { transitivity (map (fun r : date * R => r) body); [|apply map_id].
    apply map_ext. now intros [d v]. }
  rewrite Hrun, Hid. now rewrite <- Hds.
Qed.

Lemma fill_gaps_contiguous_unchanged_witness :
  fill_gaps scenario_A Linear Years
  = Ok (map (at_period_end Years)
            [(mkdate 2020 1 1, 100%R); (mkdate 2021 1 1, 150%R)]
        ++ [(mkdate 2022 1 1, 200%R)]).
Proof.
  apply (fill_gaps_contiguous_unchanged Years scenario_A
           [(mkdate 2020 1 1, 100%R); (mkdate 2021 1 1, 150%R)]
           (mkdate 2022 1 1, 200%R)).
  - repeat (constructor; [apply valid_dateb_spec; reflexivity|]).
    constructor.
  - unfold contiguous. vm_compute. repeat constructor.
  - reflexivity.
  - discriminate.
Defined.

(** X15.  When two neighbouring rows of valid dates have different
    dates that are not in increasing periods of the unit (two days of
    the same month at months, two dates of the same year at years,
    decreasing dates), the segment between them has no date, its step
    count is zero and [fill_gaps] raises [ZeroDivisionError], with either
    rate type. *)
Theorem fill_gaps_same_period_raises (u : time_unit) (ds : dataset)
    (rt : rate_type) :
  Forall valid_date (map fst ds) ->
  Exists (fun x => (period u (end_date x) <= period u (start_date x))%Z
                   /\ toordinal (start_date x) <> toordinal (end_date x))
         (add_bounds ds) ->
  fill_gaps ds rt u = Raised ZeroDivisionError.
Proof.
  intros Hv Hex. unfold fill_gaps.
  pose proof (add_bounds_valid ds Hv) as Hval.
  destruct (add_bounds ds) as [|x0 segs] eqn:E.
  { apply Exists_exists in Hex. destruct Hex as [x [[] _]]. }
  cbn [add_daterange bind].
  assert (Hraise : add_rate
            (add_timesteps
               (map (fun x => set_date_range
                                (date_range_left u (start_date x) (end_date x))
                                x) (x0 :: segs))) rt
            = Raised ZeroDivisionError).
  { unfold add_rate. apply collect_raised.
    - intros e He. apply in_map_iff in He. destruct He as [y [Hy _]].
      destruct (row_rate rt y) as [r | e' |] eqn:Er; simpl in Hy;
        try discriminate.
      injection Hy as <-. now apply row_rate_raises in Er.
    - apply Exists_exists in Hex. destruct Hex as [x [Hx [Hle Hne]]].
      rewrite Forall_forall in Hval. destruct (Hval x Hx) as [Hs He].
      apply in_map_iff.
      exists (set_timesteps 0
                (set_date_range
                   (date_range_left u (start_date x) (end_date x)) x)).
      split.
      + unfold row_rate. destruct rt; cbn [timesteps set_timesteps Nat.eqb
                                           bind].
        * reflexivity.
        * destruct (Req_dec_T _ 0); reflexivity.
      + unfold add_timesteps. rewrite map_map. apply in_map_iff.
        exists x. split; [|assumption].
        cbn [date_range set_date_range].
        rewrite date_range_left_length by assumption.
        replace (Z.to_nat _) with 0%nat by lia. reflexivity. }
  rewrite Hraise. reflexivity.
Qed.

Lemma fill_gaps_same_period_raises_witness :
  fill_gaps [(mkdate 2020 1 5, 1%R); (mkdate 2020 1 20, 2%R)] Linear Months
  = Raised ZeroDivisionError.
Proof.
  apply fill_gaps_same_period_raises.
  - repeat (constructor; [apply valid_dateb_spec; reflexivity|]).
    constructor.
  - constructor. split; vm_compute; discriminate.
Defined.

(** X16.  On a monthly table of valid dates, contiguous at months, with
    two or more rows, [monthly_to_daily] with linear rates returns a
    table with exactly one row for each day from the first date to the
    last date, in which every row of the input appears unchanged. *)
Theorem monthly_to_daily_covers_days (ds body : dataset) (r final : date * R)
    (t : dataset) :
  Forall valid_date (map fst ds) ->
  contiguous Months ds ->
  ds = body ++ [final] -> body <> [] -> ds = r :: t ->
  exists out,
    monthly_to_daily ds Linear = Ok out
    /\ map toordinal (map fst out)
       = consecutive (toordinal (fst r))
           (S (Z.to_nat (toordinal (fst final) - toordinal (fst r))))
    /\ forall x, In x ds -> In x out.
Proof.
  intros Hv Hc Hds Hbody Hrt.
  pose proof (contiguous_increasing MonthlyToDaily ds Hv Hc) as Hi.
  cbn [target_unit] in Hi.
  destruct (fill_gaps_linear_content Days ds body final Hv Hi Hds Hbody)
    as [out [Hrun [Hthrough [Hfinal _]]]].
  exists out.
  assert (Hm2d : monthly_to_daily ds Linear = Ok out).
  { change (monthly_to_daily ds Linear)
      with (_ <- gap_check ds Months ;; fill_gaps ds Linear Days).
    assert (Hne : ds <> [] \/ Months = Days)
      by (left; rewrite Hrt; discriminate).
    now rewrite (gap_check_contiguous ds Months Hne Hc). }
  split; [exact Hm2d|]. split.
  - subst ds. rewrite Hrt in Hv, Hi, Hrun.
    pose proof (fill_gaps_periods Days t r Linear out Hv Hi Hrun) as Hp.
    assert (Hlast : last (map fst t) (fst r) = fst final).
    { rewrite <- (last_cons _ _ (fst r)).
      change (fst r :: map fst t) with (map fst (r :: t)).
      rewrite <- Hrt, map_app. cbn [map]. apply last_last. }
    rewrite Hlast in Hp. exact Hp.
  - intros x Hx. rewrite Hds in Hx. apply in_app_or in Hx.
    destruct Hx as [Hx | [<- | []]]; [|assumption].
    specialize (Hthrough x Hx). now destruct x.
Qed.

Lemma monthly_to_daily_covers_days_witness :
  exists out,
    monthly_to_daily two_months Linear = Ok out
    /\ forall x, In x two_months -> In x out.
Proof.
  destruct (monthly_to_daily_covers_days two_months
              [(mkdate 2020 1 1, 100%R)] (mkdate 2020 1 1, 100%R)
              (mkdate 2020 2 1, 110%R) [(mkdate 2020 2 1, 110%R)])
    as [out [Hrun [_ Hin]]].
  - repeat (constructor; [apply valid_dateb_spec; reflexivity|]).
    constructor.
  - unfold contiguous. vm_compute. repeat constructor.
  - reflexivity.
  - discriminate.
  - reflexivity.
  - exists out. split; assumption.
Defined.

(** X17.  For a segment whose start and end values have opposite signs,
    the exponential rate is the plain ratio of the two values when the
    segment has one step, as in [extrapolate]; with two or more steps
    the fractional power of the negative ratio is not a real number, and
    [add_rate] gives no real-valued table for a table that holds such a
    segment. *)
Theorem exponential_rate_sign_change (x : row) :
  (start_value x <> 0)%R ->
  (end_value x / start_value x < 0)%R ->
  (timesteps x = 1%nat ->
   row_rate Exponential x = Ok (end_value x / start_value x)%R)
  /\ ((2 <= timesteps x)%nat ->
      row_rate Exponential x = NonReal
      /\ forall rows rows',
           In x rows -> add_rate rows Exponential <> Ok rows').
Proof.
  intros Hv Hneg.
  assert (Hroot : forall k, (1 <= k)%nat ->
            float_root (end_value x / start_value x) k
            = if Nat.eqb k 1 then Ok (end_value x / start_value x)%R
              else NonReal).
  { intros k Hk. unfold float_root.
    destruct (Rlt_dec 0 (end_value x / start_value x)); [lra|].
    destruct (Req_dec_T (end_value x / start_value x) 0); [lra|].
    reflexivity. }
  split.
  - intros Hk. rewrite row_rate_exponential by (assumption || lia).
    rewrite Hroot by lia. now rewrite Hk.
  - intros Hk.
    assert (Hrow : row_rate Exponential x = NonReal).
    { rewrite row_rate_exponential by (assumption || lia).
      rewrite Hroot by lia.
      destruct (Nat.eqb_spec (timesteps x) 1); [lia | reflexivity]. }
    split; [exact Hrow|].
    intros rows rows' Hin. unfold add_rate.
    induction rows as [|y rows IH] in rows', Hin |- *; [destruct Hin|].
    cbn [map collect]. destruct Hin as [-> | Hin].
    + rewrite Hrow. cbn [bind]. destruct (collect _); discriminate.
    + destruct (row_rate Exponential y); cbn [bind].
      * destruct (collect _) as [t' | e |] eqn:Ec; try discriminate.
        exfalso. now apply (IH t').
      * discriminate.
      * destruct (collect _); discriminate.
Qed.

Lemma exponential_rate_sign_change_witness :
  row_rate Exponential
    (mkrow (mkdate 2020 1 1) 2 (mkdate 2021 1 1) (-4) [] 1 0 [])
  = Ok (-4 / 2)%R.
Proof.
  destruct (exponential_rate_sign_change
              (mkrow (mkdate 2020 1 1) 2 (mkdate 2021 1 1) (-4) [] 1 0 []))
    as [H1 _].
  - simpl. lra.
  - simpl. lra.
  - apply H1. reflexivity.
Defined.
